(** * Page-transition and scroll-triggered animation wiring

    A shallow embedding of the animation script (the module that imports
    [gsap] and [ScrollTrigger]) and the properties of it that the
    specification states.

    The script is effectful glue: it queries the DOM, calls the animation
    engine with literal configuration objects and hands closures to the
    engine and to the page framework.  The embedding therefore threads an
    explicit [World] (the current document, the engine's tweens, timelines
    and scroll triggers, the registered listeners and a log of every call
    that crossed the script's boundary) through a small state-and-exception
    monad.

    Conventions.
    - A DOM element is a [nat] identity; a document maps a selector to the
      elements matching it, in document order.
    - A JavaScript object literal is an association list of keys and values,
      in the order the source writes them.
    - A number is a rational: a decimal literal of the source is kept as
      written, and the one product the script computes, [index * 0.1], is
      the IEEE 754 double-precision product ([times]), whose exact value
      is again a rational.
    - The arrow functions of the source are first-order closures ([Fn]):
      one constructor per arrow function, carrying its captured variables;
      [apply_fn] gives each its body.
    - A function supplied by a caller of this script ([HostFn]) is opaque
      but for its outcome: the model observes that it was invoked, and
      the call returns or raises as the function does.
    - The viewport is part of the world: [in_view] tells for which
      trigger configurations the element is in view, which is what the
      engine looks at when a trigger is created. *)

From Stdlib Require Import String List Bool Arith ZArith QArith Lia.
From Stdlib Require Import PrimFloat Uint63 FloatOps SpecFloat.
Import ListNotations.
Close Scope Q_scope.
Open Scope string_scope.
Open Scope list_scope.

(* ================================================================== *)
(** * Values *)
(* ================================================================== *)

Definition Element := nat.

(** What can be raised: the [TypeError] of a call of what is not a
    function, or whatever a caller's function throws. *)
Inductive Exn :=
| TypeError
| Thrown (what : nat).

Inductive Value : Type :=
| VUndefined
| VNull
| VBool (b : bool)
| VNum (q : Q)
| VStr (s : string)
| VObj (ref : nat)            (* any other object, by identity *)
| VElem (e : Element)         (* a DOM element reference *)
| VFn (f : Fn)
with Fn : Type :=
| HostFn (id : nat) (raises : option Exn)              (* defined outside the script *)
| ExitOnComplete (onComplete : Value)                 (* lines 40-44 *)
| ServiceCardOnEnter (card : Element) (index : nat)   (* lines 66-74 *)
| FeaturedWorkOnEnter (item : Element) (index : nat)  (* lines 93-102 *)
| TestimonialOnEnter (card : Element) (index : nat)   (* lines 121-129 *)
| TestimonialsCtaOnEnter (cta : Element)              (* lines 140-147 *)
| CtaSectionOnEnter (section : Element)               (* lines 164-171 *)
| SwapOnComplete.                                     (* lines 224-227, empty body *)

(** The [typeof] operator. *)
Definition typeof (v : Value) : string :=
  match v with
  | VUndefined => "undefined"
  | VNull => "object"
  | VBool _ => "boolean"
  | VNum _ => "number"
  | VStr _ => "string"
  | VObj _ => "object"
  | VElem _ => "object"
  | VFn _ => "function"
  end.

(** An object literal. *)
Definition Config := list (string * Value).

Fixpoint lookup (key : string) (o : Config) : option Value :=
  match o with
  | [] => None
  | (k, v) :: rest => if k =? key then Some v else lookup key rest
  end.

Definition keys (o : Config) : list string := map fst o.

(** ** Double-precision products *)

(** A double, as the number [mantissa * 2 ^ exponent].  The exponent is
    not bounded: the numbers of the script are far from overflow and
    underflow. *)
Record Double := mkDouble { mantissa : Z; exponent : Z }.

Definition double_value (x : Double) : Q :=
  if (0 <=? exponent x)%Z then inject_Z (mantissa x * 2 ^ exponent x)
  else Qmake (mantissa x) (Z.to_pos (2 ^ (- exponent x))).

(** [a / b] rounded to the nearest integer, a tie going to the even one. *)
Definition nearest_even (a b : Z) : Z :=
  let q := (a / b)%Z in
  let r := (a mod b)%Z in
  if (2 * r <? b)%Z then q
  else if (b <? 2 * r)%Z then (q + 1)%Z
  else if Z.even q then q else (q + 1)%Z.

(** A natural number rounded to 53 significant bits. *)
Definition round53 (n : Z) : Z :=
  let k := (Z.log2 n - 52)%Z in
  if (k <=? 0)%Z then n else (nearest_even n (2 ^ k) * 2 ^ k)%Z.

Definition double_of_nat (i : nat) : Double := mkDouble (round53 (Z.of_nat i)) 0.

(** The double nearest to a positive decimal literal. *)
Definition double_of_decimal (q : Q) : Double :=
  let n := Qnum q in
  let d := Zpos (Qden q) in
  let scaled (e : Z) : Z * Z :=
    if (0 <=? e)%Z then (n, d * 2 ^ e)%Z else (n * 2 ^ (- e), d)%Z in
  let e0 := (Z.log2 n - Z.log2 d - 52)%Z in
  let e := if (fst (scaled e0) <? 2 ^ 52 * snd (scaled e0))%Z
           then (e0 - 1)%Z else e0 in
  mkDouble (nearest_even (fst (scaled e)) (snd (scaled e))) e.

Definition double_mul (x y : Double) : Double :=
  mkDouble (round53 (mantissa x * mantissa y)) (exponent x + exponent y).

(** [index * step] as the script computes it: both operands as doubles,
    the product rounded to a double. *)
Definition times (index : nat) (step : Q) : Q :=
  double_value (double_mul (double_of_nat index) (double_of_decimal step)).

(** The position parameter of [timeline.to]: omitted, or the string
    ["-=d"] ("d seconds before the end of the timeline"). *)
Inductive Position :=
| AtEnd
| BeforeEnd (d : Q).

(* ================================================================== *)
(** * The world the script runs in *)
(* ================================================================== *)

Definition Document := string -> list Element.

Inductive Listener := PageLoadListener | BeforeSwapListener.

Inductive Event :=
| GsapRegisterPlugin
| GsapSet (targets : list Element) (vars : Config)
| GsapTo (target : Element) (vars : Config)
| GsapTimeline (vars : Config)
| TimelineTo (tl : nat) (target : Element) (vars : Config) (pos : Position)
| ScrollTriggerCreate (vars : Config)
| AddEventListener (type : string) (l : Listener)
| HostCall (id : nat)          (* a caller's function was invoked *)
| TweenComplete (k : nat)      (* the engine finished tween [k] *)
| TriggerEnter (t : nat).      (* trigger [t]'s element entered the viewport *)

Record Tween := mkTween
  { tw_target : Element; tw_vars : Config; tw_done : bool }.

(** A trigger as it was created, and whether its [onEnter] is still
    armed. *)
Record Trigger := mkTrigger
  { st_vars : Config; st_alive : bool }.

Record Child := mkChild
  { ch_target : Element; ch_vars : Config; ch_start : Q }.

Record Timeline := mkTimeline
  { tl_vars : Config; tl_children : list Child }.

(** What the engine finds when it refreshes a trigger: whether, with the
    page scrolled as it is, the trigger's element is between the start
    and the end its configuration gives. *)
Definition Viewport := Config -> bool.

Record World := mkWorld
  { document : Document;
    listeners : list (string * Listener);
    tweens : list Tween;
    timelines : list Timeline;
    triggers : list Trigger;
    log : list Event;
    in_view : Viewport }.

Definition set_document (d : Document) (w : World) : World :=
  mkWorld d (listeners w) (tweens w) (timelines w) (triggers w) (log w) (in_view w).

Definition set_listeners (x : list (string * Listener)) (w : World) : World :=
  mkWorld (document w) x (tweens w) (timelines w) (triggers w) (log w) (in_view w).

Definition set_tweens (x : list Tween) (w : World) : World :=
  mkWorld (document w) (listeners w) x (timelines w) (triggers w) (log w) (in_view w).

Definition set_timelines (x : list Timeline) (w : World) : World :=
  mkWorld (document w) (listeners w) (tweens w) x (triggers w) (log w) (in_view w).

Definition set_triggers (x : list Trigger) (w : World) : World :=
  mkWorld (document w) (listeners w) (tweens w) (timelines w) x (log w) (in_view w).

Definition set_log (x : list Event) (w : World) : World :=
  mkWorld (document w) (listeners w) (tweens w) (timelines w) (triggers w) x
    (in_view w).

Definition set_in_view (v : Viewport) (w : World) : World :=
  mkWorld (document w) (listeners w) (tweens w) (timelines w) (triggers w) (log w) v.

Definition nothing_in_view : Viewport := fun _ => false.

(** A freshly loaded page: nothing registered, nothing logged, no element
    of it scrolled into view yet. *)
Definition fresh (d : Document) : World := mkWorld d [] [] [] [] [] nothing_in_view.

(* ================================================================== *)
(** * State and exceptions *)
(* ================================================================== *)

Inductive Outcome (A : Type) :=
| Done (a : A)
| Raised (e : Exn).

Arguments Done {A} a.

Arguments Raised {A} e.

Definition M (A : Type) := World -> Outcome A * World.

Definition ret {A} (a : A) : M A := fun w => (Done a, w).

Definition raise {A} (e : Exn) : M A := fun w => (Raised e, w).

Definition bind {A B} (c : M A) (k : A -> M B) : M B :=
  fun w =>
    match c w with
    | (Done a, w') => k a w'
    | (Raised e, w') => (Raised e, w')
    end.

Notation "x <- c ;; k" := (bind c (fun x => k))
  (at level 61, c at next level, right associativity).

Notation "c ;; k" := (bind c (fun _ => k))
  (at level 61, right associativity).

(** The world a computation leaves, and whether it returned. *)
Definition exec {A} (c : M A) (w : World) : World := snd (c w).

Definition returns {A} (c : M A) (w : World) : Prop :=
  exists a, fst (c w) = Done a.

Definition emit (e : Event) : M unit :=
  fun w => (Done tt, set_log (log w ++ [e]) w).

Fixpoint forEach_from {A} (i : nat) (l : list A) (f : A -> nat -> M unit) : M unit :=
  match l with
  | [] => ret tt
  | x :: rest => f x i ;; forEach_from (S i) rest f
  end.

(** [array.forEach((x, index) => ...)]. *)
Definition forEach {A} (l : list A) (f : A -> nat -> M unit) : M unit :=
  forEach_from 0 l f.

(* ================================================================== *)
(** * The interface of the DOM and of the animation engine *)
(* ================================================================== *)

(** The DOM and the animation engine are not part of the script.  What
    follows is the part of their documented behaviour the script relies
    on: a query returns the matches of a selector; [gsap.set] applies
    properties at once; [gsap.to] starts a tween; [gsap.timeline] creates
    a timeline and [timeline.to] appends a tween to it, placed relative
    to the timeline's end; [ScrollTrigger.create] registers a trigger
    and, when the trigger's element is already in view, runs the
    trigger's [onEnter] before it returns.  Every call is
    recorded in the log with the arguments it was given. *)

(** [document.querySelector]: the first match, or null. *)
Definition querySelector (sel : string) : M (option Element) :=
  fun w => (Done (hd_error (document w sel)), w).

(** [gsap.utils.toArray] of a selector string: every match, as an array. *)
Definition gsap_utils_toArray (sel : string) : M (list Element) :=
  fun w => (Done (document w sel), w).

Definition gsap_registerPlugin : M unit := emit GsapRegisterPlugin.

(** [gsap.set]: applies the properties at once. *)
Definition gsap_set (targets : list Element) (vars : Config) : M unit :=
  emit (GsapSet targets vars).

(** [gsap.to]: starts a tween of [target] towards [vars]. *)
Definition gsap_to (target : Element) (vars : Config) : M unit :=
  emit (GsapTo target vars) ;;
  fun w => (Done tt, set_tweens (tweens w ++ [mkTween target vars false]) w).

(** [gsap.timeline]: an empty timeline; the result is its handle. *)
Definition gsap_timeline (vars : Config) : M nat :=
  emit (GsapTimeline vars) ;;
  fun w => (Done (length (timelines w)),
            set_timelines (timelines w ++ [mkTimeline vars []]) w).

(** The engine's default tween duration is half a second. *)
Definition duration_of (vars : Config) : Q :=
  match lookup "duration" vars with
  | Some (VNum d) => d
  | _ => 0.5%Q
  end.

Definition child_end (c : Child) : Q := (ch_start c + duration_of (ch_vars c))%Q.

Definition Qmax (a b : Q) : Q := if Qle_bool a b then b else a.

(** The end of a timeline: the latest end among its children. *)
Definition timeline_end (cs : list Child) : Q :=
  fold_left (fun acc c => Qmax acc (child_end c)) cs 0%Q.

Definition place (cs : list Child) (pos : Position) : Q :=
  match pos with
  | AtEnd => timeline_end cs
  | BeforeEnd d => (timeline_end cs - d)%Q
  end.

Fixpoint update_nth {A} (n : nat) (f : A -> A) (l : list A) : list A :=
  match l, n with
  | [], _ => []
  | x :: rest, O => f x :: rest
  | x :: rest, S n' => x :: update_nth n' f rest
  end.

Definition add_child (target : Element) (vars : Config) (pos : Position)
    (t : Timeline) : Timeline :=
  mkTimeline (tl_vars t)
    (tl_children t ++ [mkChild target vars (place (tl_children t) pos)]).

(** [timeline.to(target, vars, position)]: appends a tween to the
    timeline, placed relative to the timeline's current end. *)
Definition timeline_to (tl : nat) (target : Element) (vars : Config)
    (pos : Position) : M unit :=
  emit (TimelineTo tl target vars pos) ;;
  fun w =>
    (Done tt,
     set_timelines (update_nth tl (add_child target vars pos) (timelines w)) w).

(** [document.addEventListener]. *)
Definition addEventListener (type : string) (l : Listener) : M unit :=
  emit (AddEventListener type l) ;;
  fun w => (Done tt, set_listeners (listeners w ++ [(type, l)]) w).

(* ================================================================== *)
(** * The script *)
(* ================================================================== *)

Definition MAIN_CONTENT_SELECTOR := "#main-content".

(** The bodies of the arrow functions, and the call of a value: calling
    what is not a function raises a [TypeError]. *)
Fixpoint apply_fn (f : Fn) : M unit :=
  match f with
  | HostFn id raises =>
      emit (HostCall id) ;;
      match raises with
      | Some e => raise e
      | None => ret tt
      end
  | ExitOnComplete onComplete =>
      if typeof onComplete =? "function" then call onComplete else ret tt
  | ServiceCardOnEnter card index =>
      gsap_to card
        [("autoAlpha", VNum 1); ("y", VNum 0); ("duration", VNum 0.5);
         ("delay", VNum (times index 0.1)); ("ease", VStr "power2.out")]
  | FeaturedWorkOnEnter item index =>
      gsap_to item
        [("autoAlpha", VNum 1); ("y", VNum 0); ("scale", VNum 1);
         ("duration", VNum 0.5); ("delay", VNum (times index 0.1));
         ("ease", VStr "power2.out")]
  | TestimonialOnEnter card index =>
      gsap_to card
        [("autoAlpha", VNum 1); ("y", VNum 0); ("duration", VNum 0.5);
         ("delay", VNum (times index 0.15)); ("ease", VStr "power2.out")]
  | TestimonialsCtaOnEnter cta =>
      gsap_to cta
        [("autoAlpha", VNum 1); ("y", VNum 0); ("duration", VNum 0.6);
         ("ease", VStr "power2.out")]
  | CtaSectionOnEnter section =>
      gsap_to section
        [("autoAlpha", VNum 1); ("y", VNum 0); ("duration", VNum 0.6);
         ("ease", VStr "power2.out")]
  | SwapOnComplete => ret tt
  end
with call (v : Value) : M unit :=
  match v with
  | VFn f => apply_fn f
  | _ => raise TypeError
  end.

(** ** Triggers, as the engine handles them *)

(** A trigger whose [onEnter] is no longer armed.  The world's list of
    triggers is the record of the triggers created, each at the place
    that is its handle.  The engine also removes a [once] trigger from its
    own registry when the page is scrolled past the trigger's end; the
    script never reads that registry, and the model does not follow it. *)
Definition disarm (t : Trigger) : Trigger := mkTrigger (st_vars t) false.

(** The element of trigger [t] enters the viewport: an armed trigger
    invokes its [onEnter] entry; one created with [once: true] has its
    [onEnter] dropped at that first entry, and a disarmed trigger no
    longer reacts. *)
Definition enter_viewport (t : nat) : M unit :=
  fun w =>
    match nth_error (triggers w) t with
    | Some tr =>
        if st_alive tr then
          (emit (TriggerEnter t) ;;
           (fun w' =>
              (Done tt,
               match lookup "once" (st_vars tr) with
               | Some (VBool true) => set_triggers (update_nth t disarm (triggers w')) w'
               | _ => w'
               end)) ;;
           match lookup "onEnter" (st_vars tr) with
           | Some cb => call cb
           | None => ret tt
           end) w
        else (Done tt, w)
    | None => (Done tt, w)
    end.

(** [ScrollTrigger.create]: registers the trigger, refreshes it at once,
    and if its element is already in view lets it enter before the call
    returns. *)
Definition ScrollTrigger_create (vars : Config) : M unit :=
  emit (ScrollTriggerCreate vars) ;;
  t <- (fun w => (Done (length (triggers w)),
                  set_triggers (triggers w ++ [mkTrigger vars true]) w)) ;;
  visible <- (fun w => (Done (in_view w vars), w)) ;;
  if visible then enter_viewport t else ret tt.

(** ** The functions of the script *)

(** Lines 13-25. *)
Definition pageLoadAnimation : M unit :=
  mainContent <- querySelector MAIN_CONTENT_SELECTOR ;;
  match mainContent with
  | Some mainContent =>
      gsap_set [mainContent] [("opacity", VNum 0); ("y", VNum 20)] ;;
      gsap_to mainContent
        [("opacity", VNum 1); ("y", VNum 0); ("duration", VNum 0.5);
         ("ease", VStr "power2.out")]
  | None => ret tt
  end.

(** Lines 32-49. *)
Definition pageExitAnimation (onComplete : Value) : M unit :=
  mainContent <- querySelector MAIN_CONTENT_SELECTOR ;;
  match mainContent with
  | Some mainContent =>
      gsap_to mainContent
        [("opacity", VNum 0); ("y", VNum (-20)); ("duration", VNum 0.3);
         ("ease", VStr "power2.in");
         ("onComplete", VFn (ExitOnComplete onComplete))]
  | None =>
      if typeof onComplete =? "function" then call onComplete else ret tt
  end.

(** Lines 54-77. *)
Definition animateServiceCards : M unit :=
  cards <- gsap_utils_toArray ".gsap-service-card" ;;
  if (length cards =? 0)%nat then ret tt
  else
    forEach cards (fun card index =>
      gsap_set [card] [("autoAlpha", VNum 0); ("y", VNum 50)] ;;
      ScrollTrigger_create
        [("trigger", VElem card); ("start", VStr "top 85%");
         ("end", VStr "bottom 15%"); ("once", VBool true);
         ("onEnter", VFn (ServiceCardOnEnter card index))]).

(** Lines 83-105. *)
Definition animateFeaturedWorkItems : M unit :=
  items <- gsap_utils_toArray ".gsap-featured-work-item" ;;
  if (length items =? 0)%nat then ret tt
  else
    forEach items (fun item index =>
      gsap_set [item]
        [("autoAlpha", VNum 0); ("y", VNum 50); ("scale", VNum 0.95)] ;;
      ScrollTrigger_create
        [("trigger", VElem item); ("start", VStr "top 85%");
         ("once", VBool true);
         ("onEnter", VFn (FeaturedWorkOnEnter item index))]).

(** Lines 110-150. *)
Definition animateTestimonials : M unit :=
  cards <- gsap_utils_toArray ".gsap-testimonial-card" ;;
  cta <- querySelector ".gsap-testimonials-cta" ;;
  (if (0 <? length cards)%nat then
     forEach cards (fun card index =>
       gsap_set [card] [("autoAlpha", VNum 0); ("y", VNum 50)] ;;
       ScrollTrigger_create
         [("trigger", VElem card); ("start", VStr "top 85%");
          ("once", VBool true);
          ("onEnter", VFn (TestimonialOnEnter card index))])
   else ret tt) ;;
  match cta with
  | Some cta =>
      gsap_set [cta] [("autoAlpha", VNum 0); ("y", VNum 50)] ;;
      ScrollTrigger_create
        [("trigger", VElem cta); ("start", VStr "top 90%");
         ("once", VBool true);
         ("onEnter", VFn (TestimonialsCtaOnEnter cta))]
  | None => ret tt
  end.

(** Lines 155-173. *)
Definition animateCtaSection : M unit :=
  section <- querySelector ".gsap-cta-section" ;;
  match section with
  | None => ret tt
  | Some section =>
      gsap_set [section] [("autoAlpha", VNum 0); ("y", VNum 50)] ;;
      ScrollTrigger_create
        [("trigger", VElem section); ("start", VStr "top 85%");
         ("once", VBool true);
         ("onEnter", VFn (CtaSectionOnEnter section))]
  end.

(** [[a, b, c].filter(el => el)] on element-or-null entries. *)
Fixpoint filter_truthy (l : list (option Element)) : list Element :=
  match l with
  | [] => []
  | Some e :: rest => e :: filter_truthy rest
  | None :: rest => filter_truthy rest
  end.

(** The hero block of the page-load listener (lines 180-200). *)
Definition heroSectionAnimations : M unit :=
  heroText <- querySelector ".gsap-hero-text-content" ;;
  heroImage <- querySelector ".gsap-hero-image-container" ;;
  heroTrustedBy <- querySelector ".gsap-hero-trusted-by" ;;
  match heroText, heroImage with
  | Some text, Some image =>
      let elementsToAnimate := filter_truthy [heroText; heroImage; heroTrustedBy] in
      if (0 <? length elementsToAnimate)%nat then
        gsap_set elementsToAnimate [("autoAlpha", VNum 0); ("y", VNum 30)] ;;
        tlHero <- gsap_timeline [("delay", VNum 0.3)] ;;
        timeline_to tlHero text
          [("autoAlpha", VNum 1); ("y", VNum 0); ("duration", VNum 0.6);
           ("ease", VStr "power2.out")] AtEnd ;;
        timeline_to tlHero image
          [("autoAlpha", VNum 1); ("y", VNum 0); ("duration", VNum 0.6);
           ("ease", VStr "power2.out")] (BeforeEnd 0.4) ;;
        match heroTrustedBy with
        | Some trustedBy =>
            timeline_to tlHero trustedBy
              [("autoAlpha", VNum 1); ("y", VNum 0); ("duration", VNum 0.5);
               ("ease", VStr "power2.out")] (BeforeEnd 0.3)
        | None => ret tt
        end
      else ret tt
  | _, _ => ret tt
  end.

(** The listener of ['astro:page-load'] (lines 176-213). *)
Definition onPageLoad : M unit :=
  pageLoadAnimation ;;
  heroSectionAnimations ;;
  animateServiceCards ;;
  animateFeaturedWorkItems ;;
  animateTestimonials ;;
  animateCtaSection.

(** The listener of ['astro:before-swap'] (lines 215-228). *)
Definition onBeforeSwap : M unit :=
  pageExitAnimation (VFn SwapOnComplete).

Definition run_listener (l : Listener) : M unit :=
  match l with
  | PageLoadListener => onPageLoad
  | BeforeSwapListener => onBeforeSwap
  end.

(** The top level of the module (lines 4, 176 and 215). *)
Definition script : M unit :=
  gsap_registerPlugin ;;
  addEventListener "astro:page-load" PageLoadListener ;;
  addEventListener "astro:before-swap" BeforeSwapListener.

(* ================================================================== *)
(** * The engine and the page framework at work *)
(* ================================================================== *)

(** What the engine and the framework do with what the script gave them,
    again as documented: a tween that reaches its end invokes its
    [onComplete]; a trigger whose element enters the viewport invokes its
    [onEnter] ([enter_viewport], above), and one created with
    [once: true] invokes it at most one time; a dispatched event runs the
    listeners registered for its type. *)

Definition finish (t : Tween) : Tween := mkTween (tw_target t) (tw_vars t) true.

(** Tween [k] reaches its end: the engine marks it finished and invokes
    its [onComplete] entry, if it has one.  A finished tween does not
    finish again. *)
Definition complete_tween (k : nat) : M unit :=
  fun w =>
    match nth_error (tweens w) k with
    | Some tw =>
        if tw_done tw then (Done tt, w)
        else
          (emit (TweenComplete k) ;;
           (fun w' => (Done tt, set_tweens (update_nth k finish (tweens w')) w')) ;;
           match lookup "onComplete" (tw_vars tw) with
           | Some cb => call cb
           | None => ret tt
           end) w
    | None => (Done tt, w)
    end.

Fixpoint run_listeners (type : string) (ls : list (string * Listener)) : M unit :=
  match ls with
  | [] => ret tt
  | (ty, l) :: rest =>
      (if ty =? type then run_listener l else ret tt) ;;
      run_listeners type rest
  end.

(** The page framework dispatches an event on [document]. *)
Definition dispatchEvent (type : string) : M unit :=
  fun w => run_listeners type (listeners w) w.

(** What can happen to a loaded page.  The steps are independent of one
    another: any trigger's element may enter at any time, whatever the
    viewport last recorded, so the worlds the page can reach in the model
    include all those it reaches in a browser. *)
Inductive Action :=
| Navigate (d : Document)     (* the framework swaps in another document *)
| Dispatch (type : string)    (* a lifecycle event is dispatched *)
| Complete (k : nat)          (* a tween reaches its end *)
| Enter (t : nat)             (* a trigger's element enters the viewport *)
| Scroll (v : Viewport).      (* the page is scrolled: other elements are in view *)

Definition step (a : Action) : M unit :=
  match a with
  | Navigate d => fun w => (Done tt, set_document d w)
  | Dispatch type => dispatchEvent type
  | Complete k => complete_tween k
  | Enter t => enter_viewport t
  | Scroll v => fun w => (Done tt, set_in_view v w)
  end.

(** An exception that escapes a listener or an engine callback ends that
    callback only: the page goes on from the world it left. *)
Fixpoint steps (acts : list Action) (w : World) : World :=
  match acts with
  | [] => w
  | a :: rest => steps rest (exec (step a) w)
  end.

(** The page once the module has been evaluated. *)
Definition boot (d : Document) : World := exec script (fresh d).

(* ================================================================== *)
(** * The vocabulary of the properties *)
(* ================================================================== *)

(** ** Induction over values and functions *)

Scheme Value_Fn_ind := Induction for Value Sort Prop
  with Fn_Value_ind := Induction for Fn Sort Prop.

(** ** Page exit: the callback *)

(** The configuration object of the exit tween (lines 35-45). *)
Definition exit_vars (onComplete : Value) : Config :=
  [("opacity", VNum 0); ("y", VNum (-20)); ("duration", VNum 0.3);
   ("ease", VStr "power2.in");
   ("onComplete", VFn (ExitOnComplete onComplete))].

(** ** What a computation adds to the world *)

(** The script's functions never remove anything: they append to the log
    and create tweens and triggers, and they leave the viewport alone.
    [grows] records that shape, for any choice of what may be appended. *)
Section Growth.

Variable Pe : Event -> Prop.
Variable Pw : Tween -> Prop.
Variable Pt : Trigger -> Prop.

Record grows (w w' : World) : Prop := mkGrows
  { g_document : document w' = document w;
    g_listeners : listeners w' = listeners w;
    g_log : exists evs, log w' = log w ++ evs /\ Forall Pe evs;
    g_tweens : exists tws, tweens w' = tweens w ++ tws /\ Forall Pw tws;
    g_triggers : exists trs, triggers w' = triggers w ++ trs /\ Forall Pt trs;
    g_in_view : in_view w' = in_view w }.

Definition effect {A} (c : M A) : Prop := forall w, grows w (exec c w).

End Growth.

(** ** What the script hands to the engine *)

Definition mem (k : string) (l : list string) : bool := existsb (String.eqb k) l.

(** The style and timing settings: opacity and visibility, vertical
    offset, scale, duration, easing curve and delay. *)
Definition style_keys : list string :=
  ["opacity"; "autoAlpha"; "y"; "scale"; "duration"; "ease"; "delay"].

Definition trigger_keys : list string :=
  ["trigger"; "start"; "end"; "once"; "onEnter"].

Definition setting (v : Value) : bool :=
  match v with VNum _ | VStr _ => true | _ => false end.

(** A configuration object made of style and timing settings only. *)
Definition plain (vars : Config) : bool :=
  forallb (fun kv => mem (fst kv) style_keys && setting (snd kv)) vars.

(** The [onEnter] arrow functions. *)
Definition enter_closure (f : Fn) : bool :=
  match f with
  | ServiceCardOnEnter _ _ | FeaturedWorkOnEnter _ _ | TestimonialOnEnter _ _
  | TestimonialsCtaOnEnter _ | CtaSectionOnEnter _ => true
  | _ => false
  end.

Definition trigger_entry (kv : string * Value) : bool :=
  mem (fst kv) trigger_keys &&
  match snd kv with
  | VFn f => enter_closure f
  | VElem _ | VStr _ | VBool _ => true
  | _ => false
  end.

(** The configuration of a one-time viewport-entry trigger. *)
Definition trigger_cfg (vars : Config) : bool :=
  forallb trigger_entry vars &&
  match lookup "once" vars, lookup "onEnter" vars with
  | Some (VBool true), Some (VFn f) => enter_closure f
  | _, _ => false
  end.

Definition script_vars (vars : Config) : Prop :=
  plain vars = true \/ vars = exit_vars (VFn SwapOnComplete).

(** The engine calls the two listeners and the [onEnter] functions make. *)
Definition script_event (e : Event) : Prop :=
  match e with
  | GsapSet _ vars => plain vars = true
  | GsapTo _ vars => script_vars vars
  | GsapTimeline vars => plain vars = true
  | TimelineTo _ _ vars _ => plain vars = true
  | ScrollTriggerCreate vars => trigger_cfg vars = true
  | _ => False
  end.

Definition script_tween (tw : Tween) : Prop := script_vars (tw_vars tw).

Definition script_trigger (tr : Trigger) : Prop := trigger_cfg (st_vars tr) = true.

(** ** The engine's steps, spelled out *)

Definition finished (k : nat) (w : World) : World :=
  set_tweens (update_nth k finish (tweens w))
    (set_log (log w ++ [TweenComplete k]) w).

Definition entered (t : nat) (once : option Value) (w : World) : World :=
  match once with
  | Some (VBool true) =>
      set_triggers (update_nth t disarm (triggers w))
        (set_log (log w ++ [TriggerEnter t]) w)
  | _ => set_log (log w ++ [TriggerEnter t]) w
  end.

(** The world once [ScrollTrigger.create] has recorded its trigger. *)
Definition trigger_added (vars : Config) (w : World) : World :=
  set_triggers (triggers w ++ [mkTrigger vars true])
    (set_log (log w ++ [ScrollTriggerCreate vars]) w).

(** ** Every world the page can reach *)

Definition two_listeners : list (string * Listener) :=
  [("astro:page-load", PageLoadListener); ("astro:before-swap", BeforeSwapListener)].

Definition is_enter (t : nat) (e : Event) : bool :=
  match e with
  | TriggerEnter t' => (t' =? t)%nat
  | _ => false
  end.

(** How many times trigger [t] fired, according to the log. *)
Definition entries (t : nat) (l : list Event) : nat :=
  length (filter (is_enter t) l).

(** The log the module's top level leaves. *)
Definition boot_log : list Event :=
  [GsapRegisterPlugin;
   AddEventListener "astro:page-load" PageLoadListener;
   AddEventListener "astro:before-swap" BeforeSwapListener].

(** What the page logs after that: the engine calls of the two listeners
    and of the [onEnter] functions, and the engine's own steps. *)
Definition logged (e : Event) : Prop :=
  match e with
  | TweenComplete _ | TriggerEnter _ => True
  | GsapRegisterPlugin | AddEventListener _ _ | HostCall _ => False
  | _ => script_event e
  end.

Record script_world (w : World) : Prop := mkScriptWorld
  { sw_listeners : listeners w = two_listeners;
    sw_tweens : Forall script_tween (tweens w);
    sw_triggers : Forall script_trigger (triggers w);
    sw_log : exists rest, log w = boot_log ++ rest /\ Forall logged rest }.

(** How many times trigger [t] fired, according to its state: a disarmed
    trigger fired once, an armed one never. *)
Definition fired (t : nat) (w : World) : nat :=
  match nth_error (triggers w) t with
  | Some tr => if st_alive tr then 0 else 1
  | None => 0
  end.

(** The log and the triggers agree on the entries. *)
Definition counted (w : World) : Prop :=
  Forall script_trigger (triggers w) /\
  forall t, entries t (log w) = fired t w.

(** A call that is no entry of a trigger. *)
Definition no_entry (e : Event) : Prop := forall t, is_enter t e = false.

Definition preserves (I : World -> Prop) {A} (c : M A) : Prop :=
  forall w, I w -> I (exec c w).

(** ** Page exit with something that is not a function *)

(** The world once [pageExitAnimation] has started its tween of the main
    content [m]. *)
Definition exit_started (m : Element) (onComplete : Value) (w : World) : World :=
  mkWorld (document w) (listeners w)
    (tweens w ++ [mkTween m (exit_vars onComplete) false])
    (timelines w) (triggers w)
    (log w ++ [GsapTo m (exit_vars onComplete)])
    (in_view w).

(** ** The hero timeline *)

Definition hero_initial : Config := [("autoAlpha", VNum 0); ("y", VNum 30)].

Definition hero_vars (duration : Q) : Config :=
  [("autoAlpha", VNum 1); ("y", VNum 0); ("duration", VNum duration);
   ("ease", VStr "power2.out")].

Definition to_list {A} (o : option A) : list A :=
  match o with Some a => [a] | None => [] end.

(** The timeline the hero block builds for the text, the image and, when
    there is one, the trusted-by element. *)
Definition hero_timeline (text image : Element) (trustedBy : option Element) : Timeline :=
  let t0 := mkTimeline [("delay", VNum 0.3)] [] in
  let t1 := add_child text (hero_vars 0.6) AtEnd t0 in
  let t2 := add_child image (hero_vars 0.6) (BeforeEnd 0.4) t1 in
  match trustedBy with
  | Some tb => add_child tb (hero_vars 0.5) (BeforeEnd 0.3) t2
  | None => t2
  end.

Definition hero_started (text image : Element) (trustedBy : option Element)
    (w : World) : World :=
  let tl := length (timelines w) in
  mkWorld (document w) (listeners w) (tweens w)
    (timelines w ++ [hero_timeline text image trustedBy])
    (triggers w)
    (log w ++
       [GsapSet (text :: image :: to_list trustedBy) hero_initial;
        GsapTimeline [("delay", VNum 0.3)];
        TimelineTo tl text (hero_vars 0.6) AtEnd;
        TimelineTo tl image (hero_vars 0.6) (BeforeEnd 0.4)] ++
       match trustedBy with
       | Some tb => [TimelineTo tl tb (hero_vars 0.5) (BeforeEnd 0.3)]
       | None => []
       end)
    (in_view w).

(** ** The scroll-triggered animators, spelled out *)

(** The five kinds of element that get a viewport-entry trigger. *)
Inductive Part :=
| ServiceCard           (* animateServiceCards *)
| FeaturedWorkItem      (* animateFeaturedWorkItems *)
| TestimonialCard       (* animateTestimonials, the cards *)
| TestimonialsCta       (* animateTestimonials, the call to action *)
| CtaSection.           (* animateCtaSection *)

Definition selector (p : Part) : string :=
  match p with
  | ServiceCard => ".gsap-service-card"
  | FeaturedWorkItem => ".gsap-featured-work-item"
  | TestimonialCard => ".gsap-testimonial-card"
  | TestimonialsCta => ".gsap-testimonials-cta"
  | CtaSection => ".gsap-cta-section"
  end.

(** The style set before the trigger is registered. *)
Definition initial (p : Part) : Config :=
  match p with
  | FeaturedWorkItem => [("autoAlpha", VNum 0); ("y", VNum 50); ("scale", VNum 0.95)]
  | _ => [("autoAlpha", VNum 0); ("y", VNum 50)]
  end.

Definition on_enter (p : Part) (el : Element) (index : nat) : Fn :=
  match p with
  | ServiceCard => ServiceCardOnEnter el index
  | FeaturedWorkItem => FeaturedWorkOnEnter el index
  | TestimonialCard => TestimonialOnEnter el index
  | TestimonialsCta => TestimonialsCtaOnEnter el
  | CtaSection => CtaSectionOnEnter el
  end.

Definition trigger_vars (p : Part) (el : Element) (index : nat) : Config :=
  match p with
  | ServiceCard =>
      [("trigger", VElem el); ("start", VStr "top 85%"); ("end", VStr "bottom 15%");
       ("once", VBool true); ("onEnter", VFn (on_enter p el index))]
  | TestimonialsCta =>
      [("trigger", VElem el); ("start", VStr "top 90%");
       ("once", VBool true); ("onEnter", VFn (on_enter p el index))]
  | _ =>
      [("trigger", VElem el); ("start", VStr "top 85%");
       ("once", VBool true); ("onEnter", VFn (on_enter p el index))]
  end.

(** The stagger between two consecutive elements of a list, in seconds. *)
Definition stagger (p : Part) : option Q :=
  match p with
  | ServiceCard | FeaturedWorkItem => Some 0.1%Q
  | TestimonialCard => Some 0.15%Q
  | TestimonialsCta | CtaSection => None
  end.

Definition fixed_duration (p : Part) : Q :=
  match p with
  | TestimonialsCta | CtaSection => 0.6%Q
  | _ => 0.5%Q
  end.

(** The style applied on entry. *)
Definition target_vars (p : Part) (index : nat) : Config :=
  match p with
  | ServiceCard =>
      [("autoAlpha", VNum 1); ("y", VNum 0); ("duration", VNum 0.5);
       ("delay", VNum (times index 0.1)); ("ease", VStr "power2.out")]
  | FeaturedWorkItem =>
      [("autoAlpha", VNum 1); ("y", VNum 0); ("scale", VNum 1);
       ("duration", VNum 0.5); ("delay", VNum (times index 0.1));
       ("ease", VStr "power2.out")]
  | TestimonialCard =>
      [("autoAlpha", VNum 1); ("y", VNum 0); ("duration", VNum 0.5);
       ("delay", VNum (times index 0.15)); ("ease", VStr "power2.out")]
  | _ =>
      [("autoAlpha", VNum 1); ("y", VNum 0); ("duration", VNum 0.6);
       ("ease", VStr "power2.out")]
  end.

(** The world once trigger [t], registered for [el], has fired. *)
Definition entry_started (p : Part) (el : Element) (index t : nat) (w : World) : World :=
  mkWorld (document w) (listeners w)
    (tweens w ++ [mkTween el (target_vars p index) false])
    (timelines w)
    (update_nth t disarm (triggers w))
    (log w ++ [TriggerEnter t; GsapTo el (target_vars p index)])
    (in_view w).

(** One element hidden and its trigger created, before the engine looks
    at the viewport. *)
Definition created (p : Part) (el : Element) (index : nat) (w : World) : World :=
  mkWorld (document w) (listeners w) (tweens w) (timelines w)
    (triggers w ++ [mkTrigger (trigger_vars p el index) true])
    (log w ++ [GsapSet [el] (initial p); ScrollTriggerCreate (trigger_vars p el index)])
    (in_view w).

(** One element hidden and given its trigger; the trigger of an element
    that is already in view fires at once. *)
Definition register (p : Part) (el : Element) (index : nat) (w : World) : World :=
  if in_view w (trigger_vars p el index)
  then entry_started p el index (length (triggers w)) (created p el index w)
  else created p el index w.

Fixpoint register_from (p : Part) (index : nat) (els : list Element) (w : World) : World :=
  match els with
  | [] => w
  | el :: rest => register_from p (S index) rest (register p el index w)
  end.

Definition register_all (p : Part) (w : World) : World :=
  register_from p 0 (document w (selector p)) w.

Definition register_first (p : Part) (w : World) : World :=
  match hd_error (document w (selector p)) with
  | Some el => register p el 0 w
  | None => w
  end.

(** The triggers, the tweens and the log entries that [register_from]
    adds with the viewport [v], [t] being the handle of the first trigger:
    a trigger is left armed unless its element was in view. *)
Fixpoint triggers_from (v : Viewport) (p : Part) (index : nat) (els : list Element)
    : list Trigger :=
  match els with
  | [] => []
  | el :: rest =>
      mkTrigger (trigger_vars p el index) (negb (v (trigger_vars p el index)))
      :: triggers_from v p (S index) rest
  end.

Fixpoint tweens_from (v : Viewport) (p : Part) (index : nat) (els : list Element)
    : list Tween :=
  match els with
  | [] => []
  | el :: rest =>
      (if v (trigger_vars p el index)
       then [mkTween el (target_vars p index) false] else []) ++
      tweens_from v p (S index) rest
  end.

Fixpoint events_from (v : Viewport) (p : Part) (index t : nat) (els : list Element)
    : list Event :=
  match els with
  | [] => []
  | el :: rest =>
      GsapSet [el] (initial p) :: ScrollTriggerCreate (trigger_vars p el index) ::
      (if v (trigger_vars p el index)
       then [TriggerEnter t; GsapTo el (target_vars p index)] else []) ++
      events_from v p (S index) (S t) rest
  end.

(** ** The configuration objects *)

(** Only style and timing settings among the keys. *)
Definition settings_only (vars : Config) : bool :=
  forallb (fun k => mem k style_keys) (keys vars).

(** The configuration object of an engine call, if it takes one. *)
Definition config_of (e : Event) : option Config :=
  match e with
  | GsapSet _ vars | GsapTo _ vars | GsapTimeline vars
  | TimelineTo _ _ vars _ | ScrollTriggerCreate vars => Some vars
  | _ => None
  end.

(** C7 as worded: whatever is passed holds settings only. *)
Definition passes_settings_only (e : Event) : bool :=
  match config_of e with
  | Some vars => settings_only vars
  | None => true
  end.

(** What holds: style calls pass settings only, but for the exit tween,
    which also carries its [onComplete]; a trigger is configured by its own
    five keys. *)
Definition config_ok (e : Event) : Prop :=
  match e with
  | GsapSet _ vars | GsapTimeline vars | TimelineTo _ _ vars _ =>
      settings_only vars = true
  | GsapTo _ vars =>
      settings_only vars = true \/ vars = exit_vars (VFn SwapOnComplete)
  | ScrollTriggerCreate vars =>
      forallb (fun k => mem k trigger_keys) (keys vars) = true
  | _ => True
  end.

(** The list-based animators, by the kind of element they handle. *)
Definition list_animator (p : Part) : M unit :=
  match p with
  | ServiceCard => animateServiceCards
  | FeaturedWorkItem => animateFeaturedWorkItems
  | _ => animateTestimonials
  end.

(** ** Double precision, cross-checked *)

(** [index * step] computed by the machine's double-precision
    multiplication. *)
Definition double_product (index : nat) (step : float) : float :=
  PrimFloat.mul (PrimFloat.of_uint63 (Uint63.of_nat index)) step.

(** A machine double and a [Double] that are the same number. *)
Definition same_value (s : spec_float) (x : Double) : bool :=
  match s with
  | S754_zero _ => (mantissa x =? 0)%Z
  | S754_finite false m e =>
      let lo := Z.min e (exponent x) in
      (Zpos m * 2 ^ (e - lo) =? mantissa x * 2 ^ (exponent x - lo))%Z
  | _ => false
  end.

(** Over the first [n] indices, [times] and the machine agree on the
    products with 0.1 and with 0.15. *)
Definition products_agree (n : nat) : bool :=
  forallb
    (fun i =>
       same_value (Prim2SF (double_product i 0.1%float))
         (double_mul (double_of_nat i) (double_of_decimal 0.1%Q)) &&
       same_value (Prim2SF (double_product i 0.15%float))
         (double_mul (double_of_nat i) (double_of_decimal 0.15%Q)))
    (seq 0 n).

(** ** Page exit: when the callback runs *)

(** Whether a value holds the caller's function [id], directly or inside
    an exit tween's [onComplete] closure. *)
Fixpoint mentions (id : nat) (v : Value) : bool :=
  match v with
  | VFn f => fn_mentions id f
  | _ => false
  end
with fn_mentions (id : nat) (f : Fn) : bool :=
  match f with
  | HostFn j _ => (j =? id)%nat
  | ExitOnComplete v => mentions id v
  | _ => false
  end.

Definition cfg_mentions (id : nat) (vars : Config) : bool :=
  existsb (fun kv => mentions id (snd kv)) vars.

Definition quiet (id : nat) (e : Event) : Prop :=
  match e with
  | HostCall j => j <> id
  | _ => True
  end.

Definition clean_tween (id : nat) (tw : Tween) : Prop :=
  cfg_mentions id (tw_vars tw) = false.

Definition clean_trigger (id : nat) (tr : Trigger) : Prop :=
  cfg_mentions id (st_vars tr) = false.

(** In the log [l], every invocation of the caller's function [id] comes
    directly after the completion of tween [k]. *)
Definition after_completion (id k : nat) (l : list Event) : Prop :=
  forall pre post,
    l = pre ++ HostCall id :: post ->
    exists pre', pre = pre' ++ [TweenComplete k].

(** The world while the exit tween [k], started with the caller's
    function [id], is the only holder of that function; [base] is the log
    at the time the tween was started. *)
Record awaiting (id k : nat) (base : list Event) (w : World) : Prop := mkAwaiting
  { aw_tween : exists tw raises,
      nth_error (tweens w) k = Some tw /\
      tw_vars tw = exit_vars (VFn (HostFn id raises));
    aw_others : forall j tw,
      j <> k -> nth_error (tweens w) j = Some tw -> clean_tween id tw;
    aw_triggers : Forall (clean_trigger id) (triggers w);
    aw_log : exists new, log w = base ++ new /\ after_completion id k new }.

(** ** One page load, spelled out *)

(** What a computation adds to a world that it otherwise leaves alone. *)
Definition extend (tws : list Tween) (tls : list Timeline) (trs : list Trigger)
    (evs : list Event) (w : World) : World :=
  mkWorld (document w) (listeners w) (tweens w ++ tws) (timelines w ++ tls)
    (triggers w ++ trs) (log w ++ evs) (in_view w).

Definition main_initial : Config := [("opacity", VNum 0); ("y", VNum 20)].

Definition main_target : Config :=
  [("opacity", VNum 1); ("y", VNum 0); ("duration", VNum 0.5);
   ("ease", VStr "power2.out")].

(** The calls of [pageLoadAnimation] on document [d]. *)
Definition main_events (d : Document) : list Event :=
  match hd_error (d MAIN_CONTENT_SELECTOR) with
  | Some m => [GsapSet [m] main_initial; GsapTo m main_target]
  | None => []
  end.

Definition main_tweens (d : Document) : list Tween :=
  match hd_error (d MAIN_CONTENT_SELECTOR) with
  | Some m => [mkTween m main_target false]
  | None => []
  end.

(** The hero elements, when the two primary ones exist. *)
Definition hero_elements (d : Document) : option (Element * Element * option Element) :=
  match hd_error (d ".gsap-hero-text-content"),
        hd_error (d ".gsap-hero-image-container") with
  | Some text, Some image => Some (text, image, hd_error (d ".gsap-hero-trusted-by"))
  | _, _ => None
  end.

(** The calls of the hero block on document [d], [tl] being the handle of
    the timeline it creates. *)
Definition hero_events (d : Document) (tl : nat) : list Event :=
  match hero_elements d with
  | Some (text, image, trustedBy) =>
      [GsapSet (text :: image :: to_list trustedBy) hero_initial;
       GsapTimeline [("delay", VNum 0.3)];
       TimelineTo tl text (hero_vars 0.6) AtEnd;
       TimelineTo tl image (hero_vars 0.6) (BeforeEnd 0.4)] ++
      match trustedBy with
      | Some tb => [TimelineTo tl tb (hero_vars 0.5) (BeforeEnd 0.3)]
      | None => []
      end
  | None => []
  end.

Definition hero_timelines (d : Document) : list Timeline :=
  match hero_elements d with
  | Some (text, image, trustedBy) => [hero_timeline text image trustedBy]
  | None => []
  end.

(** The elements a part of the page animates: every match for the three
    lists, the first match for the two call-to-action elements. *)
Definition elements_of (p : Part) (d : Document) : list Element :=
  match p with
  | ServiceCard | FeaturedWorkItem | TestimonialCard => d (selector p)
  | TestimonialsCta | CtaSection => to_list (hd_error (d (selector p)))
  end.

(** What the page-load listener does for one part. *)
Definition register_part (p : Part) (w : World) : World :=
  match p with
  | ServiceCard | FeaturedWorkItem | TestimonialCard => register_all p w
  | TestimonialsCta | CtaSection => register_first p w
  end.

(** The five parts, in the order the page-load listener handles them. *)
Definition parts : list Part :=
  [ServiceCard; FeaturedWorkItem; TestimonialCard; TestimonialsCta; CtaSection].

(** What the five parts add, one after the other; [t] is the handle of
    the first trigger. *)
Fixpoint part_events (d : Document) (v : Viewport) (t : nat) (ps : list Part)
    : list Event :=
  match ps with
  | [] => []
  | p :: rest =>
      events_from v p 0 t (elements_of p d) ++
      part_events d v (t + length (elements_of p d)) rest
  end.

(** Everything one run of the page-load listener calls, in order, the
    entries of the elements already in view included. *)
Definition page_load_events (d : Document) (v : Viewport) (tl t : nat) : list Event :=
  main_events d ++ hero_events d tl ++ part_events d v t parts.

Definition page_load_triggers (d : Document) (v : Viewport) : list Trigger :=
  flat_map (fun p => triggers_from v p 0 (elements_of p d)) parts.

Definition page_load_tweens (d : Document) (v : Viewport) : list Tween :=
  main_tweens d ++ flat_map (fun p => tweens_from v p 0 (elements_of p d)) parts.

Definition page_loaded (w : World) : World :=
  extend (page_load_tweens (document w) (in_view w)) (hero_timelines (document w))
    (page_load_triggers (document w) (in_view w))
    (page_load_events (document w) (in_view w) (length (timelines w))
       (length (triggers w))) w.

(** The elements a page load finds already in view. *)
Fixpoint entered_from (v : Viewport) (p : Part) (index : nat) (els : list Element)
    : list Element :=
  match els with
  | [] => []
  | el :: rest =>
      (if v (trigger_vars p el index) then [el] else []) ++
      entered_from v p (S index) rest
  end.

Definition in_view_now (d : Document) (v : Viewport) : list Element :=
  flat_map (fun p => entered_from v p 0 (elements_of p d)) parts.

(** How many triggers one page load registers. *)
Definition trigger_count (d : Document) : nat :=
  length (d ".gsap-service-card") + length (d ".gsap-featured-work-item") +
  length (d ".gsap-testimonial-card") +
  length (to_list (hd_error (d ".gsap-testimonials-cta"))) +
  length (to_list (hd_error (d ".gsap-cta-section"))).




(** ** Hidden, then revealed *)

(** The value a style property rests at. *)
Definition resting (key : string) : Q := if key =? "y" then 0%Q else 1%Q.

(** [reveal] brings every property that [hide] set back to rest. *)
Definition restores (hide reveal : Config) : Prop :=
  forall key, In key (keys hide) -> lookup key reveal = Some (VNum (resting key)).

(** Among the calls [evs], element [e] is animated back to rest: by a tween,
    by a step of a timeline, or by the [onEnter] function of a trigger
    registered on it. *)
Definition revealed_in (evs : list Event) (e : Element) (hide : Config) : Prop :=
  (exists vars, In (GsapTo e vars) evs /\ restores hide vars) \/
  (exists tl vars pos, In (TimelineTo tl e vars pos) evs /\ restores hide vars) \/
  (exists cfg f vars,
     In (ScrollTriggerCreate cfg) evs /\
     lookup "trigger" cfg = Some (VElem e) /\
     lookup "onEnter" cfg = Some (VFn f) /\
     apply_fn f = gsap_to e vars /\
     restores hide vars).

(** Every [gsap.set] in [evs] is followed, for each of its targets, by what
    reveals that target. *)
Definition hides_then_reveals (evs : list Event) : Prop :=
  forall pre targets hide post e,
    evs = pre ++ GsapSet targets hide :: post ->
    In e targets ->
    revealed_in post e hide.

(** The same, by recursion over the calls. *)
Fixpoint reveals_follow (evs : list Event) : Prop :=
  match evs with
  | [] => True
  | GsapSet targets hide :: post =>
      (forall e, In e targets -> revealed_in post e hide) /\ reveals_follow post
  | _ :: post => reveals_follow post
  end.

(** ** Every trigger of the page *)

(** No condition on what is added. *)
Definition any {A} (x : A) : Prop := True.

(** A trigger of one of the five kinds, whatever its state. *)
Definition shaped (tr : Trigger) : Prop :=
  exists p el index, st_vars tr = trigger_vars p el index.

(** ** What a call of a function ends with *)

(** A function of the script returns; a caller's function returns or
    raises as it is made; the wrapper of the exit tween ends as the
    function it wraps. *)
Fixpoint outcome_of (f : Fn) : Outcome unit :=
  match f with
  | HostFn _ (Some e) => Raised e
  | ExitOnComplete (VFn g) => outcome_of g
  | _ => Done tt
  end.

(** ** Sample pages, for the worked instances *)

Definition empty_document : Document := fun _ => [].

(** A world with engine state in it, and a document without cards. *)
Definition busy_world : World :=
  mkWorld (fun sel => if sel =? MAIN_CONTENT_SELECTOR then [1] else [])
    two_listeners
    [mkTween 1 [("opacity", VNum 1)] false] []
    [mkTrigger [("once", VBool true)] true]
    [GsapRegisterPlugin]
    nothing_in_view.

Definition main_only : Document :=
  fun sel => if sel =? MAIN_CONTENT_SELECTOR then [1] else [].

Definition hero_text_only : Document :=
  fun sel => if sel =? ".gsap-hero-text-content" then [2]
             else if sel =? ".gsap-hero-trusted-by" then [4] else [].

Definition hero_without_trusted_by : Document :=
  fun sel => if sel =? ".gsap-hero-text-content" then [2]
             else if sel =? ".gsap-hero-image-container" then [3] else [].

Definition hero_page : Document :=
  fun sel => if sel =? ".gsap-hero-text-content" then [2]
             else if sel =? ".gsap-hero-image-container" then [3]
             else if sel =? ".gsap-hero-trusted-by" then [4] else [].

Definition cards_page : Document :=
  fun sel => if sel =? MAIN_CONTENT_SELECTOR then [1]
             else if sel =? ".gsap-service-card" then [5; 6] else [].



(** The second service card of [cards_page] is in view. *)
Definition second_card_in_view : Viewport :=
  fun vars =>
    match lookup "trigger" vars with
    | Some (VElem e) => (e =? 6)%nat
    | _ => false
    end.

(** [cards_page], loaded and scrolled down to its second card. *)
Definition scrolled_cards : World := set_in_view second_card_in_view (fresh cards_page).

(** A caller's function that throws: a class, say, called without [new]. *)
Definition throwing : Fn := HostFn 7 (Some TypeError).

(* ================================================================== *)
(** * Proofs *)
(* ================================================================== *)

(* ================================================================== *)
(** * Double-precision products *)
(* ================================================================== *)

Section Doubles.
Local Open Scope Z_scope.

Lemma nearest_even_bounds (a b : Z) :
  0 < b -> a / b <= nearest_even a b <= a / b + 1.
Proof.
  intros Hb. unfold nearest_even.
  destruct (2 * (a mod b) <? b); [lia|].
  destruct (b <? 2 * (a mod b)); [lia|].
  destruct (Z.even (a / b)); lia.
Qed.

Lemma nearest_even_error (a b : Z) :
  0 < b -> 2 * (nearest_even a b * b) <= 2 * a + b /\ 2 * a <= 2 * (nearest_even a b * b) + b.
Proof.
  intros Hb. unfold nearest_even.
  pose proof (Z.div_mod a b ltac:(lia)) as E.
  pose proof (Z.mod_pos_bound a b Hb) as R.
  destruct (Z.ltb_spec (2 * (a mod b)) b); [nia|].
  destruct (Z.ltb_spec b (2 * (a mod b))); [nia|].
  destruct (Z.even (a / b)); nia.
Qed.

Lemma nearest_even_mono (a a' b : Z) :
  0 < b -> a <= a' -> nearest_even a b <= nearest_even a' b.
Proof.
  intros Hb H.
  pose proof (Z.div_le_mono a a' b Hb H) as Q.
  destruct (Z.eq_dec (a / b) (a' / b)) as [E|N].
  - pose proof (Z.div_mod a b ltac:(lia)) as E1.
    pose proof (Z.div_mod a' b ltac:(lia)) as E2.
    assert (R : a mod b <= a' mod b) by nia.
    unfold nearest_even. rewrite <- E.
    destruct (Z.ltb_spec (2 * (a mod b)) b);
      destruct (Z.ltb_spec (2 * (a' mod b)) b);
      destruct (Z.ltb_spec b (2 * (a mod b)));
      destruct (Z.ltb_spec b (2 * (a' mod b)));
      destruct (Z.even (a / b)); lia.
  - pose proof (nearest_even_bounds a b Hb). pose proof (nearest_even_bounds a' b Hb).
    lia.
Qed.

Lemma round53_exact (n : Z) : 0 <= n < 2 ^ 53 -> round53 n = n.
Proof.
  intros H. unfold round53.
  destruct (Z.leb_spec (Z.log2 n - 52) 0) as [|K]; [reflexivity|].
  assert (P : 0 < n) by (destruct (Z.eq_dec n 0) as [->|]; [simpl in K; lia|lia]).
  pose proof (Z.log2_spec n P) as [L _].
  assert (2 ^ 53 <= 2 ^ Z.log2 n) by (apply Z.pow_le_mono_r; lia).
  lia.
Qed.

(** A number that is rounded lies between two powers of two. *)
Lemma rounded_range (n : Z) :
  0 < Z.log2 n - 52 ->
  let k := Z.log2 n - 52 in
  0 < 2 ^ k /\ 2 ^ 52 * 2 ^ k <= n < 2 ^ 53 * 2 ^ k.
Proof.
  intros K k.
  assert (P : 0 < n) by (destruct (Z.le_gt_cases n 0) as [Hn|]; [|lia];
                          rewrite (Z.log2_nonpos n Hn) in K; lia).
  pose proof (Z.log2_spec n P) as [L U].
  replace (Z.log2 n) with (52 + k) in L by (unfold k; lia).
  replace (Z.succ (Z.log2 n)) with (53 + k) in U by (unfold k; lia).
  rewrite Z.pow_add_r in L, U by lia.
  split; [apply Z.pow_pos_nonneg; lia|lia].
Qed.

Lemma round53_range (n : Z) :
  0 < Z.log2 n - 52 ->
  let k := Z.log2 n - 52 in
  2 ^ 52 * 2 ^ k <= round53 n <= 2 ^ 53 * 2 ^ k.
Proof.
  intros K k. destruct (rounded_range n K) as (P & L & U). fold k in P, L, U.
  unfold round53. fold k. destruct (Z.leb_spec k 0); [lia|].
  pose proof (nearest_even_bounds n (2 ^ k) P) as [B1 B2].
  assert (2 ^ 52 <= n / 2 ^ k) by (apply Z.div_le_lower_bound; lia).
  assert (n / 2 ^ k < 2 ^ 53) by (apply Z.div_lt_upper_bound; lia).
  nia.
Qed.

Lemma round53_mono (n m : Z) : 0 <= n <= m -> round53 n <= round53 m.
Proof.
  intros [Hn H].
  pose proof (Z.log2_le_mono n m H) as L.
  destruct (Z.le_gt_cases (Z.log2 m - 52) 0) as [Km|Km].
  - unfold round53.
    destruct (Z.leb_spec (Z.log2 n - 52) 0); [|lia].
    destruct (Z.leb_spec (Z.log2 m - 52) 0); lia.
  - pose proof (round53_range m Km) as [Rm _].
    destruct (rounded_range m Km) as (Pm & _).
    destruct (Z.le_gt_cases (Z.log2 n - 52) 0) as [Kn|Kn].
    + assert (E : round53 n = n).
      { unfold round53. destruct (Z.leb_spec (Z.log2 n - 52) 0); [reflexivity|lia]. }
      rewrite E.
      assert (n < 2 ^ 53).
      { destruct (Z.eq_dec n 0) as [->|]; [reflexivity|].
        pose proof (Z.log2_spec n ltac:(lia)) as [_ U].
        assert (2 ^ Z.succ (Z.log2 n) <= 2 ^ 53) by (apply Z.pow_le_mono_r; lia).
        lia. }
      assert (2 ^ 1 <= 2 ^ (Z.log2 m - 52)) by (apply Z.pow_le_mono_r; lia).
      change (2 ^ 1) with 2 in *. nia.
    + destruct (Z.eq_dec (Z.log2 n) (Z.log2 m)) as [E|N].
      * unfold round53. rewrite E.
        destruct (Z.leb_spec (Z.log2 m - 52) 0); [lia|].
        pose proof (nearest_even_mono n m _ Pm H). nia.
      * pose proof (round53_range n Kn) as [_ Rn].
        destruct (rounded_range n Kn) as (Pn & _).
        assert (2 ^ (Z.log2 n - 52 + 1) <= 2 ^ (Z.log2 m - 52))
          by (apply Z.pow_le_mono_r; lia).
        rewrite Z.pow_add_r in * by lia. change (2 ^ 1) with 2 in *. nia.
Qed.

Lemma round53_error (n : Z) :
  0 <= n ->
  exists u, 0 <= u /\ (2 ^ 52 * u <= n) /\
            2 * round53 n <= 2 * n + u /\ 2 * n <= 2 * round53 n + u.
Proof.
  intros Hn. destruct (Z.le_gt_cases (Z.log2 n - 52) 0) as [K|K].
  - exists 0. unfold round53. destruct (Z.leb_spec (Z.log2 n - 52) 0); lia.
  - destruct (rounded_range n K) as (P & L & U).
    exists (2 ^ (Z.log2 n - 52)). unfold round53.
    destruct (Z.leb_spec (Z.log2 n - 52) 0); [lia|].
    pose proof (nearest_even_error n _ P). lia.
Qed.

(** Two numbers at least [2^52] apart, below [2^104], stay apart when
    rounded. *)
Lemma round53_strict (n m : Z) :
  0 <= n -> n + 2 ^ 52 <= m -> m < 2 ^ 104 -> round53 n < round53 m.
Proof.
  intros Hn H Hm.
  destruct (round53_error n Hn) as (u & U0 & U1 & U2 & _).
  destruct (round53_error m ltac:(lia)) as (v & V0 & V1 & _ & V2).
  lia.
Qed.

Lemma round53_nonneg (n : Z) : 0 <= n -> 0 <= round53 n.
Proof. intros H. rewrite <- (round53_exact 0) by lia. now apply round53_mono. Qed.

Lemma double_value_le (x y : Double) :
  exponent x = exponent y -> mantissa x <= mantissa y ->
  (double_value x <= double_value y)%Q.
Proof.
  intros E H. unfold double_value. rewrite E.
  destruct (0 <=? exponent y).
  - rewrite <- Zle_Qle. apply Z.mul_le_mono_nonneg_r; [|exact H].
    apply Z.pow_nonneg. lia.
  - unfold Qle. cbn [Qnum Qden].
    apply Z.mul_le_mono_nonneg_r; [apply Pos2Z.is_nonneg|exact H].
Qed.

Lemma double_value_lt (x y : Double) :
  exponent x = exponent y -> mantissa x < mantissa y ->
  (double_value x < double_value y)%Q.
Proof.
  intros E H. unfold double_value. rewrite E.
  destruct (Z.leb_spec 0 (exponent y)).
  - rewrite <- Zlt_Qlt. apply Z.mul_lt_mono_pos_r; [|exact H].
    apply Z.pow_pos_nonneg; lia.
  - unfold Qlt. cbn [Qnum Qden].
    apply Z.mul_lt_mono_pos_r; [apply Pos2Z.is_pos|exact H].
Qed.

Lemma double_mul_mono (c : Double) (i j : nat) :
  0 <= mantissa c -> (i <= j)%nat ->
  (double_value (double_mul (double_of_nat i) c) <=
   double_value (double_mul (double_of_nat j) c))%Q.
Proof.
  intros C H. apply double_value_le; [reflexivity|]. cbn [double_mul mantissa double_of_nat].
  apply round53_mono. split.
  - apply Z.mul_nonneg_nonneg; [apply round53_nonneg; lia|exact C].
  - apply Z.mul_le_mono_nonneg_r; [exact C|]. apply round53_mono. lia.
Qed.

Lemma double_mul_strict (c : Double) (i j : nat) :
  2 ^ 52 <= mantissa c < 2 ^ 53 -> (i < j)%nat -> Z.of_nat j < 2 ^ 32 ->
  (double_value (double_mul (double_of_nat i) c) <
   double_value (double_mul (double_of_nat j) c))%Q.
Proof.
  intros C H B. apply double_value_lt; [reflexivity|]. cbn [double_mul mantissa double_of_nat].
  rewrite (round53_exact (Z.of_nat i)), (round53_exact (Z.of_nat j)) by lia.
  assert (I : 0 <= Z.of_nat i) by lia.
  assert (J : Z.of_nat i + 1 <= Z.of_nat j) by lia.
  apply round53_strict.
  - nia.
  - assert (Z.of_nat i * mantissa c + 1 * mantissa c <= Z.of_nat j * mantissa c) by nia.
    lia.
  - assert (Z.of_nat j * mantissa c < 2 ^ 32 * 2 ^ 53) by nia.
    change (2 ^ 32 * 2 ^ 53) with (2 ^ 85) in *. lia.
Qed.

Lemma times_mono (s : Q) (i j : nat) :
  (s = 0.1 \/ s = 0.15)%Q -> (i <= j)%nat -> (times i s <= times j s)%Q.
Proof.
  intros S H. unfold times. apply double_mul_mono; [|exact H].
  destruct S as [-> | ->]; vm_compute; discriminate.
Qed.

Lemma times_strict (s : Q) (i j : nat) :
  (s = 0.1 \/ s = 0.15)%Q -> (i < j)%nat -> Z.of_nat j < 2 ^ 32 ->
  (times i s < times j s)%Q.
Proof.
  intros S H B. unfold times. apply double_mul_strict; [|exact H|exact B].
  destruct S as [-> | ->]; vm_compute; split; (discriminate || reflexivity).
Qed.

End Doubles.

(** The model of the products and the machine's own multiplication agree
    on the first 4096 indices. *)
Lemma times_is_the_machine_product : products_agree 4096 = true.
Proof. vm_compute. reflexivity. Qed.

(** At index 3 the product is not three tenths: it is
    0.30000000000000004 with the step 0.1 and 0.44999999999999996 with the
    step 0.15. *)
Lemma times_is_rounded :
  times 3 0.1 = (21617278211378384 # 72057594037927936)%Q /\
  (0.3 < times 3 0.1)%Q /\
  times 3 0.15 = (16212958658533784 # 36028797018963968)%Q /\
  (times 3 0.15 < 0.45)%Q.
Proof. vm_compute. repeat split. Qed.

(* ================================================================== *)
(** * Basic facts *)
(* ================================================================== *)

(** The guarded call of lines 41-43 and 46-47. *)
Lemma guarded_call (v : Value) :
  (if typeof v =? "function" then call v else ret tt) =
  match v with VFn f => apply_fn f | _ => ret tt end.
Proof. destruct v; reflexivity. Qed.

(** How the application of a function ends depends on the function only. *)
Lemma apply_fn_outcome (f : Fn) : forall w, fst (apply_fn f w) = outcome_of f.
Proof.
  induction f using Fn_Value_ind
    with (P := fun v => forall g, v = VFn g ->
                 forall w, fst (apply_fn g w) = outcome_of g);
    try discriminate; try (intros w; reflexivity).
  - intros g [= <-]. exact IHf.
  - intros w. now destruct raises.
  - intros w. cbn [apply_fn]. rewrite guarded_call.
    destruct onComplete; try reflexivity.
    now apply (IHf f).
Qed.

Lemma apply_fn_returns (f : Fn) (w : World) :
  outcome_of f = Done tt -> returns (apply_fn f) w.
Proof. intros H. exists tt. now rewrite apply_fn_outcome. Qed.

Lemma query_absent (sel : string) (w : World) :
  document w sel = [] -> querySelector sel w = (Done None, w).
Proof. unfold querySelector. now intros ->. Qed.

Lemma query_present (sel : string) (w : World) (e : Element) :
  hd_error (document w sel) = Some e -> querySelector sel w = (Done (Some e), w).
Proof. unfold querySelector. now intros ->. Qed.

Lemma bind_done {A B} (c : M A) (k : A -> M B) (w w' : World) (a : A) :
  c w = (Done a, w') -> bind c k w = k a w'.
Proof. unfold bind. now intros ->. Qed.

(* ================================================================== *)
(** * Lists updated in place *)
(* ================================================================== *)

Lemma nth_error_update_nth {A} (f : A -> A) (l : list A) :
  forall n m,
    nth_error (update_nth n f l) m =
    if (n =? m)%nat then option_map f (nth_error l m) else nth_error l m.
Proof.
  induction l as [|x l IH]; intros [|n] [|m]; simpl; auto.
  now destruct (n =? m)%nat.
Qed.

Lemma Forall_update_nth {A} (P : A -> Prop) (f : A -> A) (l : list A) :
  (forall x, P x -> P (f x)) ->
  Forall P l -> forall n, Forall P (update_nth n f l).
Proof.
  intros Hf H. induction H as [|x l Hx Hl IH]; intros [|n]; simpl; auto.
Qed.

Lemma update_nth_last {A} (f : A -> A) (l : list A) (x : A) :
  update_nth (length l) f (l ++ [x]) = l ++ [f x].
Proof.
  induction l as [|y l IH]; simpl; [reflexivity|]. now rewrite IH.
Qed.

Lemma nth_error_last {A} (l : list A) (x : A) :
  nth_error (l ++ [x]) (length l) = Some x.
Proof.
  rewrite nth_error_app2 by lia. now rewrite Nat.sub_diag.
Qed.

(* ================================================================== *)
(** * The engine's steps, spelled out *)
(* ================================================================== *)

Lemma complete_tween_eq (k : nat) (w : World) :
  complete_tween k w =
  match nth_error (tweens w) k with
  | Some tw =>
      if tw_done tw then (Done tt, w)
      else match lookup "onComplete" (tw_vars tw) with
           | Some cb => call cb (finished k w)
           | None => (Done tt, finished k w)
           end
  | None => (Done tt, w)
  end.
Proof.
  unfold complete_tween.
  destruct (nth_error (tweens w) k) as [tw|]; [|reflexivity].
  destruct (tw_done tw); [reflexivity|].
  destruct (lookup "onComplete" (tw_vars tw)); reflexivity.
Qed.

Lemma enter_viewport_eq (t : nat) (w : World) :
  enter_viewport t w =
  match nth_error (triggers w) t with
  | Some tr =>
      if st_alive tr then
        match lookup "onEnter" (st_vars tr) with
        | Some cb => call cb (entered t (lookup "once" (st_vars tr)) w)
        | None => (Done tt, entered t (lookup "once" (st_vars tr)) w)
        end
      else (Done tt, w)
  | None => (Done tt, w)
  end.
Proof.
  unfold enter_viewport, entered.
  destruct (nth_error (triggers w) t) as [tr|]; [|reflexivity].
  destruct (st_alive tr); [|reflexivity].
  destruct (lookup "onEnter" (st_vars tr));
    destruct (lookup "once" (st_vars tr)) as [[| |[|]| | | | |]|]; reflexivity.
Qed.

Lemma ScrollTrigger_create_eq (vars : Config) (w : World) :
  ScrollTrigger_create vars w =
  if in_view w vars
  then enter_viewport (length (triggers w)) (trigger_added vars w)
  else (Done tt, trigger_added vars w).
Proof.
  unfold ScrollTrigger_create, bind, emit, trigger_added.
  cbn [set_log set_triggers triggers in_view].
  now destruct (in_view w vars).
Qed.

(** The trigger just created, entering at once. *)
Lemma enter_trigger_added (vars : Config) (w : World) :
  enter_viewport (length (triggers w)) (trigger_added vars w) =
  let w' :=
    mkWorld (document w) (listeners w) (tweens w) (timelines w)
      (triggers w ++
         [match lookup "once" vars with
          | Some (VBool true) => mkTrigger vars false
          | _ => mkTrigger vars true
          end])
      (log w ++ [ScrollTriggerCreate vars; TriggerEnter (length (triggers w))])
      (in_view w) in
  match lookup "onEnter" vars with
  | Some cb => call cb w'
  | None => (Done tt, w')
  end.
Proof.
  rewrite enter_viewport_eq. unfold trigger_added at 1. cbn [set_triggers triggers].
  rewrite nth_error_last. cbn [st_alive st_vars].
  assert (E : entered (length (triggers w)) (lookup "once" vars) (trigger_added vars w) =
              mkWorld (document w) (listeners w) (tweens w) (timelines w)
                (triggers w ++
                   [match lookup "once" vars with
                    | Some (VBool true) => mkTrigger vars false
                    | _ => mkTrigger vars true
                    end])
                (log w ++ [ScrollTriggerCreate vars; TriggerEnter (length (triggers w))])
                (in_view w)).
  { unfold entered, trigger_added.
    destruct (lookup "once" vars) as [[| |[|]| | | | |]|];
      cbn [set_triggers set_log triggers log document listeners tweens timelines in_view];
      rewrite <- ?app_assoc, ?update_nth_last; reflexivity. }
  rewrite E. reflexivity.
Qed.

(* ================================================================== *)
(** * Page exit: the callback *)
(* ================================================================== *)

Lemma pageExitAnimation_absent (v : Value) (w : World) :
  document w MAIN_CONTENT_SELECTOR = [] ->
  pageExitAnimation v w = match v with VFn f => apply_fn f w | _ => (Done tt, w) end.
Proof.
  intros H. unfold pageExitAnimation, bind.
  rewrite (query_absent _ _ H), guarded_call. now destruct v.
Qed.

Lemma pageExitAnimation_present (v : Value) (w : World) (m : Element) :
  hd_error (document w MAIN_CONTENT_SELECTOR) = Some m ->
  pageExitAnimation v w = (Done tt, exit_started m v w).
Proof.
  intros H. unfold pageExitAnimation, bind.
  rewrite (query_present _ _ _ H). reflexivity.
Qed.

(** C1, as the code has it.  When no element matches ['#main-content'],
    [pageExitAnimation] called with a function invokes that function, once
    and at once, and does nothing else: its result is the result of
    applying the function.  It raises nothing of its own, so it returns
    exactly when the function returns, and what the function throws
    reaches the caller.  For a caller's function the world it leaves
    differs from the one it found by the record of that one invocation
    only: no style was set, no tween, timeline or trigger was created. *)
Theorem pageExitAnimation_absent_calls_back (w : World) (f : Fn) :
  document w MAIN_CONTENT_SELECTOR = [] ->
  pageExitAnimation (VFn f) w = apply_fn f w /\
  fst (pageExitAnimation (VFn f) w) = outcome_of f /\
  (returns (pageExitAnimation (VFn f)) w <-> outcome_of f = Done tt) /\
  (forall id raises, f = HostFn id raises ->
     pageExitAnimation (VFn f) w =
       (match raises with Some e => Raised e | None => Done tt end,
        set_log (log w ++ [HostCall id]) w)).
Proof.
  intros H. pose proof (pageExitAnimation_absent (VFn f) w H) as E.
  cbv beta iota in E.
  assert (O : fst (pageExitAnimation (VFn f) w) = outcome_of f)
    by (rewrite E; apply apply_fn_outcome).
  split; [exact E|]. split; [exact O|]. split.
  - unfold returns. rewrite O. split.
    + intros [[] R]. exact R.
    + intros R. now exists tt.
  - intros id raises ->. rewrite E. now destruct raises.
Qed.

Lemma pageExitAnimation_absent_calls_back_witness :
  pageExitAnimation (VFn (HostFn 7 None)) (fresh empty_document) =
    (Done tt, mkWorld empty_document [] [] [] [] [HostCall 7] nothing_in_view) /\
  fst (pageExitAnimation (VFn throwing) (fresh empty_document)) = Raised TypeError.
Proof.
  split.
  - destruct (pageExitAnimation_absent_calls_back (fresh empty_document) (HostFn 7 None))
      as (_ & _ & _ & H); [reflexivity|].
    exact (H 7 None eq_refl).
  - destruct (pageExitAnimation_absent_calls_back (fresh empty_document) throwing)
      as (_ & H & _); [reflexivity|].
    exact H.
Defined.

(** As worded, C1 has [pageExitAnimation] raise no exception for any
    function.  A function that throws when it is called, handed over
    while the document has no main content, is called all the same, and
    what it throws leaves [pageExitAnimation]. *)
Lemma pageExitAnimation_absent_can_raise :
  typeof (VFn throwing) = "function" /\
  document (fresh empty_document) MAIN_CONTENT_SELECTOR = [] /\
  pageExitAnimation (VFn throwing) (fresh empty_document) =
    (Raised TypeError,
     mkWorld empty_document [] [] [] [] [HostCall 7] nothing_in_view) /\
  ~ returns (pageExitAnimation (VFn throwing)) (fresh empty_document).
Proof.
  repeat split. intros [a H]. discriminate H.
Qed.

(* ================================================================== *)
(** * What a computation adds to the world *)
(* ================================================================== *)

Section Effects.
Variable Pe : Event -> Prop.
Variable Pw : Tween -> Prop.
Variable Pt : Trigger -> Prop.

Local Abbreviation grows := (grows Pe Pw Pt).
Local Abbreviation effect := (effect Pe Pw Pt).

Lemma grows_refl (w : World) : grows w w.
Proof.
  constructor; try reflexivity; exists []; rewrite app_nil_r; auto.
Qed.

Lemma grows_trans (w1 w2 w3 : World) :
  grows w1 w2 -> grows w2 w3 -> grows w1 w3.
Proof.
  intros [d1 l1 (e1 & E1 & F1) (t1 & T1 & G1) (r1 & R1 & H1) v1]
         [d2 l2 (e2 & E2 & F2) (t2 & T2 & G2) (r2 & R2 & H2) v2].
  constructor; try congruence.
  - exists (e1 ++ e2). rewrite E2, E1, app_assoc. split; [easy|].
    apply Forall_app; auto.
  - exists (t1 ++ t2). rewrite T2, T1, app_assoc. split; [easy|].
    apply Forall_app; auto.
  - exists (r1 ++ r2). rewrite R2, R1, app_assoc. split; [easy|].
    apply Forall_app; auto.
Qed.

Lemma effect_ret {A} (a : A) : effect (ret a).
Proof. intros w. apply grows_refl. Qed.

Lemma effect_raise {A} (e : Exn) : effect (@raise A e).
Proof. intros w. apply grows_refl. Qed.

Lemma effect_bind {A B} (c : M A) (k : A -> M B) :
  effect c -> (forall a, effect (k a)) -> effect (bind c k).
Proof.
  intros Hc Hk w. specialize (Hc w). unfold exec, bind in *.
  destruct (c w) as [[a|e] w1]; simpl in *; [|exact Hc].
  eapply grows_trans; [exact Hc|]. apply Hk.
Qed.

Lemma effect_emit (e : Event) : Pe e -> effect (emit e).
Proof.
  intros He w. constructor; simpl; try reflexivity.
  - exists [e]. auto.
  - exists []. rewrite app_nil_r. auto.
  - exists []. rewrite app_nil_r. auto.
Qed.

Lemma effect_querySelector (sel : string) : effect (querySelector sel).
Proof. intros w. apply grows_refl. Qed.

Lemma effect_toArray (sel : string) : effect (gsap_utils_toArray sel).
Proof. intros w. apply grows_refl. Qed.

Lemma effect_gsap_set (targets : list Element) (vars : Config) :
  Pe (GsapSet targets vars) -> effect (gsap_set targets vars).
Proof. apply effect_emit. Qed.

Lemma effect_gsap_to (target : Element) (vars : Config) :
  Pe (GsapTo target vars) -> Pw (mkTween target vars false) ->
  effect (gsap_to target vars).
Proof.
  intros He Hw. apply effect_bind; [now apply effect_emit|].
  intros _ w. constructor; simpl; try reflexivity.
  - exists []. rewrite app_nil_r. auto.
  - eexists. split; [reflexivity|]. auto.
  - exists []. rewrite app_nil_r. auto.
Qed.

(** Creating a trigger adds it, armed or already retired, and what its
    [onEnter] adds if the element is in view. *)
Lemma effect_ScrollTrigger_create (vars : Config) :
  Pe (ScrollTriggerCreate vars) ->
  (forall t, Pe (TriggerEnter t)) ->
  (forall alive, Pt (mkTrigger vars alive)) ->
  (forall cb, lookup "onEnter" vars = Some cb -> effect (call cb)) ->
  effect (ScrollTrigger_create vars).
Proof.
  intros He Hn Ht Hcb w. unfold exec. rewrite ScrollTrigger_create_eq.
  destruct (in_view w vars).
  - rewrite enter_trigger_added. cbv zeta.
    match goal with
    | |- context [call _ ?x] => set (w' := x)
    end.
    assert (G : grows w w').
    { constructor; try reflexivity; cbn [w' log tweens triggers].
      - eexists. split; [reflexivity|]. repeat constructor; auto.
      - exists []. rewrite app_nil_r. auto.
      - eexists. split; [reflexivity|].
        destruct (lookup "once" vars) as [[| |[|]| | | | |]|]; repeat constructor; auto. }
    destruct (lookup "onEnter" vars) as [cb|] eqn:E; [|exact G].
    eapply grows_trans; [exact G|]. now apply Hcb.
  - constructor; try reflexivity; cbn [snd trigger_added set_triggers set_log log tweens triggers].
    + eexists. split; [reflexivity|]. repeat constructor; auto.
    + exists []. rewrite app_nil_r. auto.
    + eexists. split; [reflexivity|]. repeat constructor; auto.
Qed.

Lemma effect_gsap_timeline (vars : Config) :
  Pe (GsapTimeline vars) -> effect (gsap_timeline vars).
Proof.
  intros He. apply effect_bind; [now apply effect_emit|].
  intros _ w. constructor; simpl; try reflexivity;
    exists []; rewrite app_nil_r; auto.
Qed.

Lemma effect_timeline_to (tl : nat) (target : Element) (vars : Config)
    (pos : Position) :
  Pe (TimelineTo tl target vars pos) -> effect (timeline_to tl target vars pos).
Proof.
  intros He. apply effect_bind; [now apply effect_emit|].
  intros _ w. constructor; simpl; try reflexivity;
    exists []; rewrite app_nil_r; auto.
Qed.

Lemma effect_forEach_from {A} (l : list A) (f : A -> nat -> M unit) :
  (forall x i, effect (f x i)) -> forall i, effect (forEach_from i l f).
Proof.
  intros Hf. induction l as [|x l IH]; intros i; simpl.
  - apply effect_ret.
  - apply effect_bind; [apply Hf|]. intros _. apply IH.
Qed.

Lemma effect_forEach {A} (l : list A) (f : A -> nat -> M unit) :
  (forall x i, effect (f x i)) -> effect (forEach l f).
Proof. intros Hf. now apply effect_forEach_from. Qed.

End Effects.

(** Decomposes a computation of the script into its engine calls, leaving
    one goal per call: that the call may be made. *)
Ltac effects :=
  repeat first
    [ apply effect_ret
    | apply effect_raise
    | apply effect_querySelector
    | apply effect_toArray
    | apply effect_gsap_set
    | apply effect_gsap_to
    | apply effect_ScrollTrigger_create;
        [ | intros ? | intros ?
          | let H := fresh in
            intros ? H; simpl in H; injection H as <-; cbn [call apply_fn] ]
    | apply effect_gsap_timeline
    | apply effect_timeline_to
    | apply effect_forEach; intros ? ?
    | apply effect_bind; [|intros ?]
    | match goal with
      | |- effect _ _ _ (match ?x with _ => _ end) => destruct x
      end ].

(* ================================================================== *)
(** * What the script hands to the engine *)
(* ================================================================== *)

Ltac script_goal :=
  first
    [ exact I
    | reflexivity
    | left; reflexivity
    | right; reflexivity ].

Lemma onPageLoad_script : effect logged script_tween script_trigger onPageLoad.
Proof.
  unfold onPageLoad, pageLoadAnimation, heroSectionAnimations,
    animateServiceCards, animateFeaturedWorkItems, animateTestimonials,
    animateCtaSection.
  cbv zeta. effects; script_goal.
Qed.

Lemma onBeforeSwap_script : effect logged script_tween script_trigger onBeforeSwap.
Proof.
  unfold onBeforeSwap, pageExitAnimation. effects; script_goal.
Qed.

Lemma enter_closure_script (f : Fn) :
  enter_closure f = true ->
  effect logged script_tween script_trigger (apply_fn f).
Proof.
  destruct f; try discriminate; intros _; simpl; effects; script_goal.
Qed.

Lemma run_listeners_effect Pe Pw Pt (type : string) :
  effect Pe Pw Pt onPageLoad -> effect Pe Pw Pt onBeforeSwap ->
  forall ls, effect Pe Pw Pt (run_listeners type ls).
Proof.
  intros H1 H2. induction ls as [|[ty l] ls IH]; simpl.
  - apply effect_ret.
  - apply effect_bind; [|intros _; exact IH].
    destruct (ty =? type); [|apply effect_ret].
    destruct l; assumption.
Qed.

Lemma dispatchEvent_effect Pe Pw Pt (type : string) :
  effect Pe Pw Pt onPageLoad -> effect Pe Pw Pt onBeforeSwap ->
  effect Pe Pw Pt (dispatchEvent type).
Proof.
  intros H1 H2 w. unfold dispatchEvent.
  exact (run_listeners_effect Pe Pw Pt type H1 H2 (listeners w) w).
Qed.

(* ================================================================== *)
(** * Every world the page can reach *)
(* ================================================================== *)

Lemma boot_eq (d : Document) :
  script (fresh d) =
  (Done tt, mkWorld d two_listeners [] [] [] boot_log nothing_in_view).
Proof. reflexivity. Qed.

Lemma boot_script_world (d : Document) : script_world (boot d).
Proof.
  constructor; simpl; auto.
  exists []. now split.
Qed.

Lemma grows_script_world (w w' : World) :
  grows logged script_tween script_trigger w w' ->
  script_world w -> script_world w'.
Proof.
  intros [_ L (evs & E & Fe) (tws & T & Fw) (trs & R & Ft) _]
         [sl sw st (rest & Lg & sg)].
  constructor.
  - congruence.
  - rewrite T. apply Forall_app. now split.
  - rewrite R. apply Forall_app. now split.
  - exists (rest ++ evs). rewrite E, Lg, app_assoc. split; [reflexivity|].
    apply Forall_app. now split.
Qed.

Lemma plain_no_callback (vars : Config) :
  plain vars = true -> lookup "onComplete" vars = None.
Proof.
  induction vars as [|[k v] vars IH]; simpl; [reflexivity|].
  intros H. apply andb_true_iff in H as [H1 H2].
  apply andb_true_iff in H1 as [H1 _].
  destruct (String.eqb_spec k "onComplete") as [->|_]; [discriminate H1|].
  now apply IH.
Qed.

(** The only callback the script hands to a tween is the wrapper of the
    before-swap listener's empty function. *)
Lemma script_tween_callback (tw : Tween) :
  script_tween tw ->
  lookup "onComplete" (tw_vars tw) = None \/
  lookup "onComplete" (tw_vars tw) = Some (VFn (ExitOnComplete (VFn SwapOnComplete))).
Proof.
  intros [P|E].
  - left. now apply plain_no_callback.
  - right. now rewrite E.
Qed.

Lemma complete_tween_script_world (k : nat) (w : World) :
  script_world w -> script_world (exec (complete_tween k) w).
Proof.
  intros W. unfold exec. rewrite complete_tween_eq.
  destruct (nth_error (tweens w) k) as [tw|] eqn:N; [|exact W].
  destruct (tw_done tw); [exact W|].
  assert (F : script_world (finished k w)).
  { destruct W as [sl sw st (rest & Lg & sg)]. constructor; simpl; auto.
    - apply Forall_update_nth; auto.
    - exists (rest ++ [TweenComplete k]). rewrite Lg.
      split; [now rewrite <- app_assoc|]. apply Forall_app. split; [assumption|].
      repeat constructor. }
  assert (V : script_tween tw).
  { destruct W as [_ sw _ _]. rewrite Forall_forall in sw.
    apply sw. eapply nth_error_In; eassumption. }
  destruct (script_tween_callback tw V) as [-> | ->]; exact F.
Qed.

Lemma trigger_cfg_entries (vars : Config) :
  trigger_cfg vars = true ->
  lookup "once" vars = Some (VBool true) /\
  exists f, lookup "onEnter" vars = Some (VFn f) /\ enter_closure f = true.
Proof.
  unfold trigger_cfg. intros H. apply andb_true_iff in H as [_ H].
  destruct (lookup "once" vars) as [[| |[|]| | | | |]|]; try discriminate.
  destruct (lookup "onEnter" vars) as [[| | | | | | |f]|]; try discriminate.
  split; [reflexivity|]. now exists f.
Qed.

Lemma enter_viewport_script_world (t : nat) (w : World) :
  script_world w -> script_world (exec (enter_viewport t) w).
Proof.
  intros W. unfold exec. rewrite enter_viewport_eq.
  destruct (nth_error (triggers w) t) as [tr|] eqn:N; [|exact W].
  destruct (st_alive tr) eqn:A; [|exact W].
  assert (C : trigger_cfg (st_vars tr) = true).
  { destruct W as [_ _ st _]. rewrite Forall_forall in st.
    apply st. eapply nth_error_In; eassumption. }
  destruct (trigger_cfg_entries _ C) as (O & f & E & Hf).
  rewrite E, O. simpl.
  apply (grows_script_world (entered t (Some (VBool true)) w)).
  - apply (enter_closure_script f Hf).
  - destruct W as [sl sw st (rest & Lg & sg)]. constructor; simpl; auto.
    + apply Forall_update_nth; auto.
    + exists (rest ++ [TriggerEnter t]). rewrite Lg.
      split; [now rewrite <- app_assoc|]. apply Forall_app. split; [assumption|].
      repeat constructor.
Qed.

Lemma step_script_world (a : Action) (w : World) :
  script_world w -> script_world (exec (step a) w).
Proof.
  destruct a as [d|type|k|t|v]; intros W.
  - destruct W. now constructor.
  - eapply grows_script_world; [|exact W].
    apply dispatchEvent_effect; [exact onPageLoad_script|exact onBeforeSwap_script].
  - now apply complete_tween_script_world.
  - now apply enter_viewport_script_world.
  - destruct W. now constructor.
Qed.

Lemma steps_script_world (acts : list Action) :
  forall w, script_world w -> script_world (steps acts w).
Proof.
  induction acts as [|a acts IH]; intros w W; simpl; [exact W|].
  apply IH. now apply step_script_world.
Qed.

Lemma reachable_script_world (d : Document) (acts : list Action) :
  script_world (steps acts (boot d)).
Proof. apply steps_script_world, boot_script_world. Qed.

(* ================================================================== *)
(** * Entries, counted *)
(* ================================================================== *)

Lemma preserves_ret (I : World -> Prop) {A} (a : A) : preserves I (ret a).
Proof. intros w H. exact H. Qed.

Lemma preserves_raise (I : World -> Prop) {A} (e : Exn) : preserves I (@raise A e).
Proof. intros w H. exact H. Qed.

Lemma preserves_bind (I : World -> Prop) {A B} (c : M A) (k : A -> M B) :
  preserves I c -> (forall a, preserves I (k a)) -> preserves I (bind c k).
Proof.
  intros Hc Hk w H. specialize (Hc w H). unfold exec, bind in *.
  destruct (c w) as [[a|e] w1]; simpl in *; [|exact Hc].
  now apply Hk.
Qed.

Lemma preserves_forEach (I : World -> Prop) {A} (l : list A) (f : A -> nat -> M unit) :
  (forall x i, preserves I (f x i)) -> preserves I (forEach l f).
Proof.
  intros Hf. unfold forEach. generalize 0.
  induction l as [|x l IH]; intros i; simpl.
  - apply preserves_ret.
  - apply preserves_bind; [apply Hf|]. intros _. apply IH.
Qed.

Lemma entries_app (t : nat) (l l' : list Event) :
  entries t (l ++ l') = entries t l + entries t l'.
Proof. unfold entries. now rewrite filter_app, length_app. Qed.

Lemma counted_logged (w w' : World) (e : Event) :
  no_entry e ->
  triggers w' = triggers w -> log w' = log w ++ [e] ->
  counted w -> counted w'.
Proof.
  intros Q T L [F C]. split; [now rewrite T|].
  intros t. unfold fired. rewrite T, L, entries_app. unfold entries at 2.
  simpl. rewrite (Q t). simpl. rewrite Nat.add_0_r. apply C.
Qed.

Lemma preserves_emit (e : Event) : no_entry e -> preserves counted (emit e).
Proof. intros Q w H. now apply (counted_logged w _ e). Qed.

Lemma preserves_gsap_to (target : Element) (vars : Config) :
  preserves counted (gsap_to target vars).
Proof.
  intros w H. apply (counted_logged w _ (GsapTo target vars)); auto.
  intros t. reflexivity.
Qed.

Lemma preserves_gsap_timeline (vars : Config) : preserves counted (gsap_timeline vars).
Proof.
  intros w H. apply (counted_logged w _ (GsapTimeline vars)); auto.
  intros t. reflexivity.
Qed.

Lemma preserves_timeline_to (tl : nat) (target : Element) (vars : Config)
    (pos : Position) :
  preserves counted (timeline_to tl target vars pos).
Proof.
  intros w H. apply (counted_logged w _ (TimelineTo tl target vars pos)); auto.
  intros t. reflexivity.
Qed.

(** No function of the script, and no caller's function, enters a
    trigger or creates one. *)
Lemma preserves_apply_fn (f : Fn) : preserves counted (apply_fn f).
Proof.
  induction f using Fn_Value_ind
    with (P := fun v => preserves counted (call v));
    simpl; try apply preserves_raise; try apply preserves_gsap_to;
    try apply preserves_ret; auto.
  - apply preserves_bind.
    + apply preserves_emit. intros t. reflexivity.
    + intros _. destruct raises; [apply preserves_raise|apply preserves_ret].
  - rewrite guarded_call. destruct onComplete; try apply preserves_ret.
    exact IHf.
Qed.

Lemma preserves_call (v : Value) : preserves counted (call v).
Proof. destruct v; try apply preserves_raise. apply preserves_apply_fn. Qed.

Lemma preserves_enter_viewport (t : nat) : preserves counted (enter_viewport t).
Proof.
  intros w [F C]. unfold exec. rewrite enter_viewport_eq.
  destruct (nth_error (triggers w) t) as [tr|] eqn:N; [|now split].
  destruct (st_alive tr) eqn:A; [|now split].
  assert (Hc : trigger_cfg (st_vars tr) = true).
  { rewrite Forall_forall in F. apply F. eapply nth_error_In; eassumption. }
  destruct (trigger_cfg_entries _ Hc) as (O & f & E & Hf).
  rewrite E, O. apply (preserves_call (VFn f)).
  split; cbn [entered set_triggers set_log triggers log].
  - apply Forall_update_nth; auto.
  - intros t'. rewrite entries_app, C. unfold fired.
    cbn [set_triggers triggers]. rewrite nth_error_update_nth.
    unfold entries. simpl. rewrite Nat.eqb_sym.
    destruct (Nat.eqb_spec t' t) as [->|_]; simpl.
    + rewrite N, A. reflexivity.
    + apply Nat.add_0_r.
Qed.

Lemma preserves_ScrollTrigger_create (vars : Config) :
  trigger_cfg vars = true -> preserves counted (ScrollTrigger_create vars).
Proof.
  intros Hc w [F C]. unfold exec. rewrite ScrollTrigger_create_eq.
  assert (K : counted (trigger_added vars w)).
  { split; cbn [trigger_added set_triggers set_log triggers log].
    - apply Forall_app. split; [exact F|]. repeat constructor. exact Hc.
    - intros t. rewrite entries_app. unfold entries at 2. simpl.
      rewrite Nat.add_0_r, C. unfold fired.
      cbn [trigger_added set_triggers set_log triggers].
      destruct (Nat.lt_ge_cases t (length (triggers w))) as [Hlt|Hge].
      + now rewrite nth_error_app1.
      + rewrite nth_error_app2 by assumption.
        assert (N : nth_error (triggers w) t = None) by now apply nth_error_None.
        rewrite N.
        destruct (t - length (triggers w)) as [|[|n]]; reflexivity. }
  destruct (in_view w vars); [|exact K].
  now apply preserves_enter_viewport.
Qed.

Ltac counting :=
  repeat first
    [ apply preserves_ret
    | apply preserves_raise
    | apply preserves_gsap_to
    | apply preserves_ScrollTrigger_create; reflexivity
    | apply preserves_gsap_timeline
    | apply preserves_timeline_to
    | apply preserves_emit; intros ?; reflexivity
    | apply preserves_forEach; intros ? ?
    | apply preserves_bind; [|intros ?]
    | match goal with
      | |- preserves _ (match ?x with _ => _ end) => destruct x
      | |- preserves _ (querySelector _) => intros ? ?; assumption
      | |- preserves _ (gsap_utils_toArray _) => intros ? ?; assumption
      end ].

Lemma preserves_onPageLoad : preserves counted onPageLoad.
Proof.
  unfold onPageLoad, pageLoadAnimation, heroSectionAnimations,
    animateServiceCards, animateFeaturedWorkItems, animateTestimonials,
    animateCtaSection, gsap_set.
  cbv zeta. counting.
Qed.

Lemma preserves_onBeforeSwap : preserves counted onBeforeSwap.
Proof. unfold onBeforeSwap, pageExitAnimation. counting. Qed.

Lemma preserves_step (a : Action) : preserves counted (step a).
Proof.
  destruct a as [d|type|k|t|v]; cbn [step].
  - intros w H. exact H.
  - intros w. unfold dispatchEvent, exec. generalize (listeners w) at 1. intros ls.
    revert w. change (preserves counted (run_listeners type ls)).
    induction ls as [|[ty l] ls IH]; simpl; [apply preserves_ret|].
    apply preserves_bind; [|intros _; exact IH].
    destruct (ty =? type); [|apply preserves_ret].
    destruct l; [apply preserves_onPageLoad|apply preserves_onBeforeSwap].
  - intros w H. unfold exec. rewrite complete_tween_eq.
    destruct (nth_error (tweens w) k) as [tw|]; [|exact H].
    destruct (tw_done tw); [exact H|].
    assert (F : counted (finished k w)).
    { apply (counted_logged w _ (TweenComplete k)); auto. intros t. reflexivity. }
    destruct (lookup "onComplete" (tw_vars tw)) as [cb|]; [|exact F].
    now apply preserves_call.
  - apply preserves_enter_viewport.
  - intros w H. exact H.
Qed.

Lemma boot_counted (d : Document) : counted (boot d).
Proof.
  split; [constructor|]. intros [|t]; reflexivity.
Qed.

Lemma reachable_counted (d : Document) (acts : list Action) :
  counted (steps acts (boot d)).
Proof.
  generalize (boot_counted d). generalize (boot d).
  induction acts as [|a acts IH]; intros w H; simpl; [exact H|].
  apply IH. now apply preserves_step.
Qed.

(** In a world the page can reach no trigger has fired twice. *)
Lemma entries_at_most_once (d : Document) (acts : list Action) (t : nat) :
  entries t (log (steps acts (boot d))) <= 1.
Proof.
  destruct (reachable_counted d acts) as [_ C]. rewrite C. unfold fired.
  destruct (nth_error (triggers (steps acts (boot d))) t) as [tr|]; [|lia].
  destruct (st_alive tr); lia.
Qed.
(* ================================================================== *)
(** * Early returns *)
(* ================================================================== *)

Lemma pageLoadAnimation_absent (w : World) :
  document w MAIN_CONTENT_SELECTOR = [] -> pageLoadAnimation w = (Done tt, w).
Proof.
  intros H. unfold pageLoadAnimation. now rewrite (bind_done _ _ _ _ _ (query_absent _ _ H)).
Qed.

Lemma animateServiceCards_absent (w : World) :
  document w ".gsap-service-card" = [] -> animateServiceCards w = (Done tt, w).
Proof.
  intros H. unfold animateServiceCards, bind, gsap_utils_toArray. now rewrite H.
Qed.

Lemma animateFeaturedWorkItems_absent (w : World) :
  document w ".gsap-featured-work-item" = [] -> animateFeaturedWorkItems w = (Done tt, w).
Proof.
  intros H. unfold animateFeaturedWorkItems, bind, gsap_utils_toArray. now rewrite H.
Qed.

Lemma animateTestimonials_absent (w : World) :
  document w ".gsap-testimonial-card" = [] ->
  document w ".gsap-testimonials-cta" = [] ->
  animateTestimonials w = (Done tt, w).
Proof.
  intros H1 H2. unfold animateTestimonials, bind, gsap_utils_toArray, querySelector.
  now rewrite H1, H2.
Qed.

Lemma animateCtaSection_absent (w : World) :
  document w ".gsap-cta-section" = [] -> animateCtaSection w = (Done tt, w).
Proof.
  intros H. unfold animateCtaSection. now rewrite (bind_done _ _ _ _ _ (query_absent _ _ H)).
Qed.

Lemma heroSectionAnimations_absent (w : World) :
  document w ".gsap-hero-text-content" = [] \/
  document w ".gsap-hero-image-container" = [] ->
  heroSectionAnimations w = (Done tt, w).
Proof.
  intros H. unfold heroSectionAnimations, bind, querySelector.
  destruct H as [H|H]; rewrite H; simpl; [reflexivity|].
  now destruct (hd_error (document w ".gsap-hero-text-content")).
Qed.

(** C10.  With no element of class [gsap-service-card]
    (respectively [gsap-featured-work-item]) in the document,
    [animateServiceCards] (respectively [animateFeaturedWorkItems]) returns
    with the world exactly as it found it: the log has no new engine call,
    so no style was set, and the engine's tweens, timelines and triggers
    are untouched. *)
Theorem empty_list_returns_early (w : World) :
  (document w ".gsap-service-card" = [] ->
     animateServiceCards w = (Done tt, w)) /\
  (document w ".gsap-featured-work-item" = [] ->
     animateFeaturedWorkItems w = (Done tt, w)).
Proof.
  split; [apply animateServiceCards_absent|apply animateFeaturedWorkItems_absent].
Qed.

Lemma empty_list_returns_early_witness :
  animateServiceCards busy_world = (Done tt, busy_world) /\
  animateFeaturedWorkItems busy_world = (Done tt, busy_world).
Proof.
  destruct (empty_list_returns_early busy_world) as [H1 H2].
  split; [apply H1|apply H2]; reflexivity.
Defined.

(* ================================================================== *)
(** * Page exit with something that is not a function *)
(* ================================================================== *)

Lemma exit_tween_completes (m : Element) (v : Value) (w : World) :
  complete_tween (length (tweens w)) (exit_started m v w) =
  match v with
  | VFn f => apply_fn f (finished (length (tweens w)) (exit_started m v w))
  | _ => (Done tt, finished (length (tweens w)) (exit_started m v w))
  end.
Proof.
  rewrite complete_tween_eq. simpl tweens at 1. rewrite nth_error_last.
  cbn [tw_done tw_vars]. change (lookup "onComplete" (exit_vars v))
    with (Some (VFn (ExitOnComplete v))).
  cbn [call apply_fn]. rewrite guarded_call. now destruct v.
Qed.

Lemma finished_exit_started (m : Element) (v : Value) (w : World) :
  finished (length (tweens w)) (exit_started m v w) =
  mkWorld (document w) (listeners w)
    (tweens w ++ [mkTween m (exit_vars v) true])
    (timelines w) (triggers w)
    (log w ++ [GsapTo m (exit_vars v); TweenComplete (length (tweens w))])
    (in_view w).
Proof.
  unfold finished, exit_started, set_tweens, set_log. cbn [document listeners
    tweens timelines triggers log in_view]. rewrite update_nth_last, <- app_assoc.
  reflexivity.
Qed.

Lemma finished_tween_stays (k : nat) (w : World) (tw : Tween) :
  nth_error (tweens w) k = Some tw -> tw_done tw = true ->
  complete_tween k w = (Done tt, w).
Proof.
  intros N D. rewrite complete_tween_eq, N, D. reflexivity.
Qed.

(** C8.  Let [onComplete] be any value that is not a function.  Without
    a ['#main-content'] element, [pageExitAnimation] returns and leaves the
    world as it was.  With one, it returns having started the exit tween
    and nothing more; when the engine later finishes that tween, the arrow
    function installed as its [onComplete] returns too, and the log shows
    the tween's start and its completion only: the value is never called,
    and no [TypeError] is raised at either moment.  A further completion of
    the finished tween changes nothing. *)
Theorem pageExitAnimation_non_function (w : World) (v : Value) :
  typeof v <> "function" ->
  (document w MAIN_CONTENT_SELECTOR = [] ->
     pageExitAnimation v w = (Done tt, w)) /\
  (forall m, hd_error (document w MAIN_CONTENT_SELECTOR) = Some m ->
     let k := length (tweens w) in
     let w1 := exit_started m v w in
     let w2 := finished k w1 in
     pageExitAnimation v w = (Done tt, w1) /\
     complete_tween k w1 = (Done tt, w2) /\
     log w2 = log w ++ [GsapTo m (exit_vars v); TweenComplete k] /\
     complete_tween k w2 = (Done tt, w2)).
Proof.
  intros NF. assert (E : forall f, v <> VFn f).
  { intros f ->. now apply NF. }
  split.
  - intros H. rewrite (pageExitAnimation_absent _ _ H).
    destruct v; try reflexivity. now destruct (E f).
  - intros m H k w1 w2. split; [now apply pageExitAnimation_present|].
    split; [|split].
    + unfold w2, w1, k. rewrite exit_tween_completes.
      destruct v; try reflexivity. now destruct (E f).
    + unfold w2, w1, k. now rewrite finished_exit_started.
    + unfold w2, w1, k. rewrite finished_exit_started.
      eapply finished_tween_stays; [apply nth_error_last|reflexivity].
Qed.

Lemma pageExitAnimation_non_function_witness :
  pageExitAnimation VUndefined (fresh empty_document) = (Done tt, fresh empty_document) /\
  pageExitAnimation VUndefined (fresh main_only) =
    (Done tt, exit_started 1 VUndefined (fresh main_only)) /\
  complete_tween 0 (exit_started 1 VUndefined (fresh main_only)) =
    (Done tt, finished 0 (exit_started 1 VUndefined (fresh main_only))).
Proof.
  assert (NF : typeof VUndefined <> "function") by discriminate.
  split.
  - apply (proj1 (pageExitAnimation_non_function (fresh empty_document) VUndefined NF)).
    reflexivity.
  - destruct (proj2 (pageExitAnimation_non_function (fresh main_only) VUndefined NF)
                1 eq_refl) as (H1 & H2 & _).
    split; [exact H1|exact H2].
Defined.

(* ================================================================== *)
(** * The two subscriptions *)
(* ================================================================== *)

Lemma dispatch_page_load (w : World) :
  listeners w = two_listeners ->
  dispatchEvent "astro:page-load" w = onPageLoad w.
Proof.
  intros H. unfold dispatchEvent. rewrite H.
  cbn -[onPageLoad onBeforeSwap]. unfold bind, ret.
  destruct (onPageLoad w) as [[[]|e] w']; reflexivity.
Qed.

Lemma dispatch_before_swap (w : World) :
  listeners w = two_listeners ->
  dispatchEvent "astro:before-swap" w = onBeforeSwap w.
Proof.
  intros H. unfold dispatchEvent. rewrite H.
  cbn -[onPageLoad onBeforeSwap]. unfold bind, ret.
  destruct (onBeforeSwap w) as [[[]|e] w']; reflexivity.
Qed.

Lemma dispatch_other (type : string) (w : World) :
  listeners w = two_listeners ->
  type <> "astro:page-load" -> type <> "astro:before-swap" ->
  dispatchEvent type w = (Done tt, w).
Proof.
  intros H N1 N2. unfold dispatchEvent. rewrite H.
  cbn [run_listeners two_listeners].
  rewrite (proj2 (String.eqb_neq "astro:page-load" type)) by congruence.
  rewrite (proj2 (String.eqb_neq "astro:before-swap" type)) by congruence.
  reflexivity.
Qed.

(** C5.  Evaluating the module registers the plugin and subscribes to
    exactly two events, ['astro:page-load'] and ['astro:before-swap'], and
    does no animation work: no style is set and the engine holds no tween,
    timeline or trigger.  In every world the page reaches afterwards the
    subscriptions are these two; dispatching ['astro:page-load'] runs the
    page-load listener, dispatching ['astro:before-swap'] runs the
    before-swap listener, dispatching any other event does nothing, and
    every entry of the log beyond the three of the module's top level is
    an engine call made by the two listeners or by the [onEnter]
    functions they registered, or a step of the engine itself: no further
    subscription, and no animation work from anywhere else. *)
Theorem two_lifecycle_subscriptions (d : Document) :
  script (fresh d) =
    (Done tt,
     mkWorld d
       [("astro:page-load", PageLoadListener); ("astro:before-swap", BeforeSwapListener)]
       [] [] []
       [GsapRegisterPlugin;
        AddEventListener "astro:page-load" PageLoadListener;
        AddEventListener "astro:before-swap" BeforeSwapListener]
       nothing_in_view) /\
  forall acts,
    let w := steps acts (boot d) in
    listeners w = listeners (boot d) /\
    dispatchEvent "astro:page-load" w = onPageLoad w /\
    dispatchEvent "astro:before-swap" w = onBeforeSwap w /\
    (forall type, type <> "astro:page-load" -> type <> "astro:before-swap" ->
       dispatchEvent type w = (Done tt, w)) /\
    exists rest, log w = log (boot d) ++ rest /\ Forall logged rest.
Proof.
  split; [reflexivity|]. intros acts w.
  destruct (reachable_script_world d acts) as [sl _ _ sg]. fold w in sl, sg.
  split; [exact sl|]. split; [now apply dispatch_page_load|].
  split; [now apply dispatch_before_swap|]. split; [|exact sg].
  intros type N1 N2. now apply dispatch_other.
Qed.

Lemma two_lifecycle_subscriptions_witness :
  dispatchEvent "click" (steps [Dispatch "astro:page-load"] (boot main_only)) =
  (Done tt, steps [Dispatch "astro:page-load"] (boot main_only)).
Proof.
  destruct (proj2 (two_lifecycle_subscriptions main_only) [Dispatch "astro:page-load"])
    as (_ & _ & _ & H & _).
  apply H; discriminate.
Defined.

(* ================================================================== *)
(** * The hero timeline *)
(* ================================================================== *)

Lemma heroSectionAnimations_present (w : World) (text image : Element) :
  hd_error (document w ".gsap-hero-text-content") = Some text ->
  hd_error (document w ".gsap-hero-image-container") = Some image ->
  heroSectionAnimations w =
  (Done tt,
   hero_started text image (hd_error (document w ".gsap-hero-trusted-by")) w).
Proof.
  intros Ht Hi. destruct w as [d ls tws tls trs lg v]. cbn [document] in *.
  unfold heroSectionAnimations, bind, querySelector. cbn [document].
  rewrite Ht, Hi. unfold hero_started, hero_timeline.
  destruct (hd_error (d ".gsap-hero-trusted-by")) as [tb|];
    cbn -[add_child update_nth];
    rewrite !update_nth_last, <- !app_assoc; reflexivity.
Qed.

Lemma pageLoadAnimation_document (w : World) :
  document (exec pageLoadAnimation w) = document w.
Proof.
  assert (E : effect (fun _ => True) (fun _ => True) (fun _ => True) pageLoadAnimation).
  { unfold pageLoadAnimation. effects; exact I. }
  apply (g_document _ _ _ _ _ (E w)).
Qed.

(** C9.  If the hero text element or the hero image element is missing,
    the hero block does nothing at all, whatever else the page holds (a
    trusted-by element included): it leaves the world as it found it, and
    the page-load listener behaves as if the block were not there.  If
    both are present and only the trusted-by element is missing, the block
    hides the text and the image and animates both on a timeline of two
    steps. *)
Theorem hero_needs_text_and_image (w : World) :
  (document w ".gsap-hero-text-content" = [] \/
   document w ".gsap-hero-image-container" = [] ->
     heroSectionAnimations w = (Done tt, w) /\
     onPageLoad w =
       (pageLoadAnimation ;; animateServiceCards ;; animateFeaturedWorkItems ;;
        animateTestimonials ;; animateCtaSection) w) /\
  (forall text image,
     hd_error (document w ".gsap-hero-text-content") = Some text ->
     hd_error (document w ".gsap-hero-image-container") = Some image ->
     document w ".gsap-hero-trusted-by" = [] ->
     heroSectionAnimations w =
       (Done tt,
        mkWorld (document w) (listeners w) (tweens w)
          (timelines w ++
             [add_child image (hero_vars 0.6) (BeforeEnd 0.4)
                (add_child text (hero_vars 0.6) AtEnd
                   (mkTimeline [("delay", VNum 0.3)] []))])
          (triggers w)
          (log w ++
             [GsapSet [text; image] hero_initial;
              GsapTimeline [("delay", VNum 0.3)];
              TimelineTo (length (timelines w)) text (hero_vars 0.6) AtEnd;
              TimelineTo (length (timelines w)) image (hero_vars 0.6) (BeforeEnd 0.4)])
          (in_view w))).
Proof.
  split.
  - intros H. split; [now apply heroSectionAnimations_absent|].
    unfold onPageLoad. unfold bind at 1. symmetry. unfold bind at 1. symmetry.
    pose proof (pageLoadAnimation_document w) as D. unfold exec in D.
    destruct (pageLoadAnimation w) as [[[]|e] w1]; [|reflexivity].
    simpl in D. unfold bind at 1.
    rewrite heroSectionAnimations_absent; [reflexivity|].
    now rewrite !D.
  - intros text image Ht Hi Hb.
    rewrite (heroSectionAnimations_present w text image Ht Hi), Hb.
    unfold hero_started, hero_timeline. simpl hd_error. cbv iota zeta.
    now rewrite app_nil_r.
Qed.

Lemma hero_needs_text_and_image_witness :
  heroSectionAnimations (fresh hero_text_only) = (Done tt, fresh hero_text_only) /\
  log (exec heroSectionAnimations (fresh hero_without_trusted_by)) =
    [GsapSet [2; 3] hero_initial;
     GsapTimeline [("delay", VNum 0.3)];
     TimelineTo 0 2 (hero_vars 0.6) AtEnd;
     TimelineTo 0 3 (hero_vars 0.6) (BeforeEnd 0.4)].
Proof.
  split.
  - apply (proj1 (hero_needs_text_and_image (fresh hero_text_only))).
    right. reflexivity.
  - unfold exec.
    rewrite (proj2 (hero_needs_text_and_image (fresh hero_without_trusted_by))
               2 3 eq_refl eq_refl eq_refl).
    reflexivity.
Defined.

(** C6.  With the hero text and image present, the hero block creates one
    timeline whose [delay] is 0.3 seconds, and adds the text at the
    timeline's end, the image at ["-=0.4"] and, when there is one, the
    trusted-by element at ["-=0.3"].  On it the text animation starts
    at 0 and lasts 0.6 seconds; the image animation starts 0.4 seconds
    before the text animation ends (at 0.2) and lasts 0.6 seconds; and, when
    the trusted-by element exists, its animation starts 0.3 seconds before
    the image animation ends (at 0.5).  Without a trusted-by element the
    timeline has the first two steps only. *)
Theorem hero_timeline_offsets (w : World) (text image : Element) :
  hd_error (document w ".gsap-hero-text-content") = Some text ->
  hd_error (document w ".gsap-hero-image-container") = Some image ->
  let created := nth_error (timelines (exec heroSectionAnimations w))
                   (length (timelines w)) in
  (forall trustedBy,
     hd_error (document w ".gsap-hero-trusted-by") = Some trustedBy ->
     log (exec heroSectionAnimations w) =
       log w ++
       [GsapSet [text; image; trustedBy] hero_initial;
        GsapTimeline [("delay", VNum 0.3)];
        TimelineTo (length (timelines w)) text (hero_vars 0.6) AtEnd;
        TimelineTo (length (timelines w)) image (hero_vars 0.6) (BeforeEnd 0.4);
        TimelineTo (length (timelines w)) trustedBy (hero_vars 0.5) (BeforeEnd 0.3)] /\
     exists c1 c2 c3,
       created = Some (mkTimeline [("delay", VNum 0.3)] [c1; c2; c3]) /\
       ch_target c1 = text /\ ch_target c2 = image /\ ch_target c3 = trustedBy /\
       (ch_start c1 == 0 /\ child_end c1 == 0.6 /\
        ch_start c2 == child_end c1 - 0.4 /\ child_end c2 == 0.8 /\
        ch_start c3 == child_end c2 - 0.3 /\ ch_start c3 == 0.5)%Q) /\
  (document w ".gsap-hero-trusted-by" = [] ->
     exists c1 c2,
       created = Some (mkTimeline [("delay", VNum 0.3)] [c1; c2]) /\
       ch_target c1 = text /\ ch_target c2 = image /\
       (ch_start c1 == 0 /\ child_end c1 == 0.6 /\
        ch_start c2 == child_end c1 - 0.4)%Q).
Proof.
  intros Ht Hi created. unfold created, exec.
  rewrite (heroSectionAnimations_present w text image Ht Hi).
  unfold hero_started. cbn [snd timelines log]. rewrite nth_error_last. split.
  - intros tb ->. split; [reflexivity|]. do 3 eexists. split; [reflexivity|].
    repeat split; reflexivity.
  - intros ->. do 2 eexists. split; [reflexivity|].
    repeat split; reflexivity.
Qed.

Lemma hero_timeline_offsets_witness :
  exists c1 c2 c3,
    nth_error (timelines (exec heroSectionAnimations (fresh hero_page))) 0 =
      Some (mkTimeline [("delay", VNum 0.3)] [c1; c2; c3]) /\
    ch_target c1 = 2 /\ ch_target c2 = 3 /\ ch_target c3 = 4 /\
    (ch_start c1 == 0 /\ child_end c1 == 0.6 /\
     ch_start c2 == child_end c1 - 0.4 /\ child_end c2 == 0.8 /\
     ch_start c3 == child_end c2 - 0.3 /\ ch_start c3 == 0.5)%Q.
Proof.
  exact (proj2 (proj1 (hero_timeline_offsets (fresh hero_page) 2 3 eq_refl eq_refl)
                 4 eq_refl)).
Defined.


(* ================================================================== *)
(** * The scroll-triggered animators, spelled out *)
(* ================================================================== *)

Lemma trigger_vars_entries (p : Part) (el : Element) (index : nat) :
  lookup "trigger" (trigger_vars p el index) = Some (VElem el) /\
  lookup "once" (trigger_vars p el index) = Some (VBool true) /\
  lookup "onEnter" (trigger_vars p el index) = Some (VFn (on_enter p el index)).
Proof. destruct p; repeat split; reflexivity. Qed.

Lemma on_enter_eq (p : Part) (el : Element) (index : nat) :
  apply_fn (on_enter p el index) = gsap_to el (target_vars p index).
Proof. destruct p; reflexivity. Qed.

Lemma enter_registered (p : Part) (el : Element) (index t : nat) (w : World) :
  nth_error (triggers w) t = Some (mkTrigger (trigger_vars p el index) true) ->
  enter_viewport t w = (Done tt, entry_started p el index t w).
Proof.
  intros N. rewrite enter_viewport_eq, N. cbn [st_alive st_vars].
  destruct (trigger_vars_entries p el index) as (_ & O & E). rewrite E, O.
  cbn [call]. rewrite on_enter_eq.
  unfold entered, entry_started, gsap_to, bind, emit, set_log, set_tweens, set_triggers.
  cbn [document listeners tweens timelines triggers log in_view].
  now rewrite <- app_assoc.
Qed.

Lemma enter_disarmed (t : nat) (w : World) (tr : Trigger) :
  nth_error (triggers w) t = Some tr -> st_alive tr = false ->
  enter_viewport t w = (Done tt, w).
Proof. intros N A. now rewrite enter_viewport_eq, N, A. Qed.

Lemma register_step (p : Part) (el : Element) (index : nat) (w : World) :
  (gsap_set [el] (initial p) ;; ScrollTrigger_create (trigger_vars p el index)) w =
  (Done tt, register p el index w).
Proof.
  destruct w as [d ls tws tls trs lg v].
  rewrite (bind_done _ _ _
             (mkWorld d ls tws tls trs (lg ++ [GsapSet [el] (initial p)]) v) tt)
    by reflexivity.
  rewrite ScrollTrigger_create_eq. unfold register.
  cbn [in_view triggers].
  assert (E : trigger_added (trigger_vars p el index)
                (mkWorld d ls tws tls trs (lg ++ [GsapSet [el] (initial p)]) v) =
              created p el index (mkWorld d ls tws tls trs lg v)).
  { unfold trigger_added, created, set_triggers, set_log.
    cbn [document listeners tweens timelines triggers log in_view].
    now rewrite <- app_assoc. }
  rewrite E. destruct (v (trigger_vars p el index)); [|reflexivity].
  apply enter_registered. unfold created. cbn [triggers]. apply nth_error_last.
Qed.

Lemma forEach_register (p : Part) (f : Element -> nat -> M unit) :
  (forall el i w, f el i w = (Done tt, register p el i w)) ->
  forall els i w, forEach_from i els f w = (Done tt, register_from p i els w).
Proof.
  intros Hf. induction els as [|el els IH]; intros i w; simpl; [reflexivity|].
  unfold bind. rewrite Hf. apply IH.
Qed.

Lemma extend_extend (a1 a2 : list Tween) (b1 b2 : list Timeline)
    (c1 c2 : list Trigger) (e1 e2 : list Event) (w : World) :
  extend a2 b2 c2 e2 (extend a1 b1 c1 e1 w) =
  extend (a1 ++ a2) (b1 ++ b2) (c1 ++ c2) (e1 ++ e2) w.
Proof. unfold extend. simpl. now rewrite !app_assoc. Qed.

Lemma extend_nothing (w : World) : extend [] [] [] [] w = w.
Proof. unfold extend. rewrite !app_nil_r. now destruct w. Qed.

(** What one registration adds. *)
Lemma register_extend (p : Part) (el : Element) (index : nat) (w : World) :
  register p el index w =
  extend (tweens_from (in_view w) p index [el]) []
    (triggers_from (in_view w) p index [el])
    (events_from (in_view w) p index (length (triggers w)) [el]) w.
Proof.
  unfold register, extend, entry_started, created. cbn [tweens_from triggers_from events_from].
  cbn [document listeners tweens timelines triggers log in_view].
  destruct (in_view w (trigger_vars p el index)); cbn [negb app]; rewrite !app_nil_r.
  - rewrite update_nth_last, <- app_assoc. reflexivity.
  - reflexivity.
Qed.

Lemma register_from_extend (p : Part) (els : list Element) :
  forall i w,
    register_from p i els w =
    extend (tweens_from (in_view w) p i els) []
      (triggers_from (in_view w) p i els)
      (events_from (in_view w) p i (length (triggers w)) els) w.
Proof.
  induction els as [|el els IH]; intros i w; cbn [register_from].
  - symmetry. apply extend_nothing.
  - rewrite IH, register_extend, extend_extend.
    cbn [extend in_view triggers tweens_from triggers_from events_from].
    rewrite length_app, Nat.add_1_r, !app_nil_r. reflexivity.
Qed.

Lemma register_first_extend (p : Part) (w : World) :
  register_first p w =
  extend (tweens_from (in_view w) p 0 (to_list (hd_error (document w (selector p))))) []
    (triggers_from (in_view w) p 0 (to_list (hd_error (document w (selector p)))))
    (events_from (in_view w) p 0 (length (triggers w))
       (to_list (hd_error (document w (selector p))))) w.
Proof.
  unfold register_first.
  destruct (hd_error (document w (selector p))) as [el|]; cbn [to_list].
  - apply register_extend.
  - symmetry. apply extend_nothing.
Qed.

Lemma register_from_document (p : Part) (els : list Element) :
  forall i w, document (register_from p i els w) = document w.
Proof. intros i w. now rewrite register_from_extend. Qed.

Lemma animateServiceCards_eq (w : World) :
  animateServiceCards w = (Done tt, register_all ServiceCard w).
Proof.
  unfold animateServiceCards, register_all, bind at 1, gsap_utils_toArray.
  cbn [selector]. destruct (document w ".gsap-service-card") as [|c cs]; [reflexivity|].
  cbn [length Nat.eqb]. unfold forEach. apply (forEach_register ServiceCard).
  intros el i w'. apply (register_step ServiceCard).
Qed.

Lemma animateFeaturedWorkItems_eq (w : World) :
  animateFeaturedWorkItems w = (Done tt, register_all FeaturedWorkItem w).
Proof.
  unfold animateFeaturedWorkItems, register_all, bind at 1, gsap_utils_toArray.
  cbn [selector]. destruct (document w ".gsap-featured-work-item") as [|c cs]; [reflexivity|].
  cbn [length Nat.eqb]. unfold forEach. apply (forEach_register FeaturedWorkItem).
  intros el i w'. apply (register_step FeaturedWorkItem).
Qed.

Lemma animateCtaSection_eq (w : World) :
  animateCtaSection w = (Done tt, register_first CtaSection w).
Proof.
  unfold animateCtaSection, register_first, bind at 1, querySelector.
  cbn [selector]. destruct (hd_error (document w ".gsap-cta-section")) as [s|]; [|reflexivity].
  apply (register_step CtaSection).
Qed.

Lemma animateTestimonials_eq (w : World) :
  animateTestimonials w =
  (Done tt, register_first TestimonialsCta (register_all TestimonialCard w)).
Proof.
  unfold animateTestimonials, register_first, register_all.
  unfold bind at 1, gsap_utils_toArray. unfold bind at 1, querySelector.
  rewrite register_from_document. cbn [selector].
  assert (E : (if (0 <? length (document w ".gsap-testimonial-card"))%nat
               then forEach (document w ".gsap-testimonial-card")
                      (fun card index =>
                         gsap_set [card] [("autoAlpha", VNum 0); ("y", VNum 50)] ;;
                         ScrollTrigger_create
                           [("trigger", VElem card); ("start", VStr "top 85%");
                            ("once", VBool true);
                            ("onEnter", VFn (TestimonialOnEnter card index))])
               else ret tt) w =
              (Done tt, register_from TestimonialCard 0 (document w ".gsap-testimonial-card") w)).
  { destruct (document w ".gsap-testimonial-card") as [|c cs]; [reflexivity|].
    cbn [length Nat.ltb Nat.leb]. unfold forEach.
    apply (forEach_register TestimonialCard).
    intros el i w'. apply (register_step TestimonialCard). }
  unfold bind at 1. rewrite E.
  destruct (hd_error (document w ".gsap-testimonials-cta")) as [c|]; [|reflexivity].
  apply (register_step TestimonialsCta).
Qed.

Lemma nth_error_triggers_from (v : Viewport) (p : Part) (els : list Element) :
  forall i j el,
    nth_error els j = Some el ->
    nth_error (triggers_from v p i els) j =
    Some (mkTrigger (trigger_vars p el (i + j)) (negb (v (trigger_vars p el (i + j))))).
Proof.
  induction els as [|x els IH]; intros i [|j] el H; simpl in *; try discriminate.
  - injection H as ->. now rewrite Nat.add_0_r.
  - rewrite (IH (S i) j el H). now rewrite Nat.add_succ_r.
Qed.

Lemma length_triggers_from (v : Viewport) (p : Part) (els : list Element) :
  forall i, length (triggers_from v p i els) = length els.
Proof. induction els as [|el els IH]; intros i; simpl; auto. Qed.

(** The trigger of the element at place [j], once the list is registered. *)
Lemma registered_trigger (p : Part) (els : list Element) (w : World)
    (j : nat) (el : Element) :
  nth_error els j = Some el ->
  nth_error (triggers (register_from p 0 els w)) (length (triggers w) + j) =
  Some (mkTrigger (trigger_vars p el j) (negb (in_view w (trigger_vars p el j)))).
Proof.
  intros H. rewrite register_from_extend. cbn [extend triggers].
  rewrite nth_error_app2 by lia.
  replace (length (triggers w) + j - length (triggers w)) with j by lia.
  now apply nth_error_triggers_from.
Qed.

(** C3.  Each scroll-triggered animator ([animateServiceCards],
    [animateFeaturedWorkItems], [animateCtaSection], and
    [animateTestimonials] with them) is a one-shot sequence.  It finds its
    elements by selector; for each element present, in document order, it
    sets the initial style and then registers a trigger on that element
    with [once: true]; with an absent selector no step runs.  When the
    element of such a trigger enters the viewport (at once, if the element
    is in view when the trigger is created) the target style is applied to
    it by one tween of fixed duration (0.5 seconds for cards and items,
    0.6 for the two call-to-action elements) and the trigger is retired,
    so that a second entry does nothing.  In every world the page can
    reach, no trigger has fired more than once. *)
Theorem scroll_animators_one_shot :
  (forall w,
     animateServiceCards w = (Done tt, register_all ServiceCard w) /\
     animateFeaturedWorkItems w = (Done tt, register_all FeaturedWorkItem w) /\
     animateTestimonials w =
       (Done tt, register_first TestimonialsCta (register_all TestimonialCard w)) /\
     animateCtaSection w = (Done tt, register_first CtaSection w)) /\
  (forall p w, document w (selector p) = [] ->
     register_all p w = w /\ register_first p w = w) /\
  (forall p els w,
     log (register_from p 0 els w) =
       log w ++ events_from (in_view w) p 0 (length (triggers w)) els /\
     forall j el, nth_error els j = Some el ->
       nth_error (triggers (register_from p 0 els w)) (length (triggers w) + j) =
       Some (mkTrigger (trigger_vars p el j) (negb (in_view w (trigger_vars p el j))))) /\
  (forall p el index,
     lookup "trigger" (trigger_vars p el index) = Some (VElem el) /\
     lookup "once" (trigger_vars p el index) = Some (VBool true) /\
     lookup "onEnter" (trigger_vars p el index) = Some (VFn (on_enter p el index))) /\
  (forall p el index t w,
     nth_error (triggers w) t = Some (mkTrigger (trigger_vars p el index) true) ->
     enter_viewport t w = (Done tt, entry_started p el index t w) /\
     lookup "autoAlpha" (initial p) = Some (VNum 0) /\
     lookup "autoAlpha" (target_vars p index) = Some (VNum 1) /\
     lookup "y" (target_vars p index) = Some (VNum 0) /\
     duration_of (target_vars p index) = fixed_duration p /\
     enter_viewport t (entry_started p el index t w) =
       (Done tt, entry_started p el index t w)) /\
  (forall d acts t, entries t (log (steps acts (boot d))) <= 1).
Proof.
  split; [|split; [|split; [|split; [|split]]]].
  - intros w. repeat split.
    + apply animateServiceCards_eq.
    + apply animateFeaturedWorkItems_eq.
    + apply animateTestimonials_eq.
    + apply animateCtaSection_eq.
  - intros p w H. unfold register_all, register_first. now rewrite H.
  - intros p els w. split; [now rewrite register_from_extend|].
    intros j el H. now apply registered_trigger.
  - apply trigger_vars_entries.
  - intros p el index t w N. split; [now apply enter_registered|].
    split; [now destruct p|]. split; [now destruct p|].
    split; [now destruct p|]. split.
    + now destruct p.
    + apply (enter_disarmed t _ (disarm (mkTrigger (trigger_vars p el index) true)));
        [|reflexivity].
      unfold entry_started. cbn [triggers].
      rewrite nth_error_update_nth, Nat.eqb_refl, N. reflexivity.
  - apply entries_at_most_once.
Qed.

Lemma scroll_animators_one_shot_witness :
  register_all FeaturedWorkItem (fresh cards_page) = fresh cards_page /\
  enter_viewport 0 (register_all ServiceCard scrolled_cards) =
    (Done tt, entry_started ServiceCard 5 0 0 (register_all ServiceCard scrolled_cards)) /\
  nth_error (triggers (register_from ServiceCard 0 [5; 6] scrolled_cards)) 1 =
    Some (mkTrigger (trigger_vars ServiceCard 6 1) false).
Proof.
  destruct scroll_animators_one_shot as (_ & H2 & H3 & _ & H5 & _). split; [|split].
  - apply (H2 FeaturedWorkItem (fresh cards_page)). reflexivity.
  - apply (H5 ServiceCard 5 0 0 (register_all ServiceCard scrolled_cards)).
    reflexivity.
  - exact (proj2 (H3 ServiceCard [5; 6] scrolled_cards) 1 6 eq_refl).
Defined.

(* ================================================================== *)
(** * The configuration objects *)
(* ================================================================== *)

Lemma plain_settings_only (vars : Config) :
  plain vars = true -> settings_only vars = true.
Proof.
  unfold plain, settings_only, keys.
  induction vars as [|[k v] vars IH]; simpl; [reflexivity|].
  intros H. apply andb_true_iff in H as [H1 H2].
  apply andb_true_iff in H1 as [H1 _]. rewrite H1. now apply IH.
Qed.

Lemma trigger_cfg_keys (vars : Config) :
  trigger_cfg vars = true ->
  forallb (fun k => mem k trigger_keys) (keys vars) = true.
Proof.
  unfold trigger_cfg. intros H. apply andb_true_iff in H as [H _].
  unfold keys. induction vars as [|[k v] vars IH]; simpl in *; [reflexivity|].
  apply andb_true_iff in H as [H1 H2]. unfold trigger_entry in H1.
  apply andb_true_iff in H1 as [H1 _]. simpl in H1. rewrite H1. now apply IH.
Qed.

Lemma logged_config_ok (e : Event) : logged e -> config_ok e.
Proof.
  destruct e; simpl; auto using plain_settings_only, trigger_cfg_keys.
  intros [H|H]; [left; now apply plain_settings_only|now right].
Qed.

Lemma stagger_step (p : Part) (s : Q) :
  stagger p = Some s -> (s = 0.1 \/ s = 0.15)%Q.
Proof. destruct p; intros [= <-]; auto. Qed.

(** The trigger a list-based animator leaves for the element at place
    [i] of its list. *)
Lemma list_animator_trigger (p : Part) (s : Q) (w : World) (i : nat) (el : Element) :
  stagger p = Some s ->
  nth_error (document w (selector p)) i = Some el ->
  nth_error (triggers (exec (list_animator p) w)) (length (triggers w) + i) =
  Some (mkTrigger (trigger_vars p el i) (negb (in_view w (trigger_vars p el i)))).
Proof.
  intros S H. destruct p; try discriminate S; unfold exec; cbn [list_animator].
  - rewrite animateServiceCards_eq. now apply registered_trigger.
  - rewrite animateFeaturedWorkItems_eq. now apply registered_trigger.
  - rewrite animateTestimonials_eq. cbn [snd].
    pose proof (registered_trigger TestimonialCard _ w i el H) as R.
    rewrite register_first_extend. cbn [extend triggers].
    rewrite nth_error_app1; [exact R|].
    apply nth_error_Some. unfold register_all. rewrite R. discriminate.
Qed.

(** C7, as the code has it.  In every world the page can reach, each
    configuration object passed to [gsap.set], [gsap.to], [gsap.timeline]
    or [timeline.to] has only opacity or visibility, vertical offset,
    scale, duration, easing and delay among its keys, with one exception,
    the exit tween, whose object also carries an [onComplete] function;
    each object passed to [ScrollTrigger.create] has only the keys
    [trigger], [start], [end], [once] and [onEnter].  Each list-based
    animator ([animateServiceCards], [animateFeaturedWorkItems],
    [animateTestimonials] for the cards) gives the element at index [i] of
    its list a trigger whose [onEnter] function starts a tween with the
    [delay] [i * 0.1] (service cards and featured work items) or
    [i * 0.15] (testimonial cards), the product in double precision as
    the script computes it; the two single call-to-action elements get no
    delay.  The delays increase monotonically with the index, and
    strictly so for every index an array can have. *)
Theorem configurations_and_stagger :
  (forall d acts, Forall config_ok (log (steps acts (boot d)))) /\
  (forall p s, stagger p = Some s ->
     forall w i el, nth_error (document w (selector p)) i = Some el ->
       nth_error (triggers (exec (list_animator p) w)) (length (triggers w) + i) =
         Some (mkTrigger (trigger_vars p el i) (negb (in_view w (trigger_vars p el i)))) /\
       lookup "onEnter" (trigger_vars p el i) = Some (VFn (on_enter p el i)) /\
       apply_fn (on_enter p el i) = gsap_to el (target_vars p i) /\
       lookup "delay" (target_vars p i) = Some (VNum (times i s))) /\
  (forall p, stagger p = None -> forall i, lookup "delay" (target_vars p i) = None) /\
  (stagger ServiceCard = Some 0.1%Q /\ stagger FeaturedWorkItem = Some 0.1%Q /\
   stagger TestimonialCard = Some 0.15%Q) /\
  (forall p s i j, stagger p = Some s -> i <= j -> (times i s <= times j s)%Q) /\
  (forall p s i j, stagger p = Some s -> i < j -> (Z.of_nat j < 2 ^ 32)%Z ->
     (times i s < times j s)%Q).
Proof.
  split; [|split; [|split; [|split; [|split]]]].
  - intros d acts.
    destruct (reachable_script_world d acts) as [_ _ _ (rest & -> & sg)].
    apply Forall_app. split; [repeat constructor|].
    eapply Forall_impl; [|exact sg]. exact logged_config_ok.
  - intros p s S w i el H. split; [|split; [|split]].
    + now apply (list_animator_trigger p s).
    + apply trigger_vars_entries.
    + apply on_enter_eq.
    + destruct p; try discriminate S; injection S as <-; reflexivity.
  - intros p S i. destruct p; try discriminate S; reflexivity.
  - repeat split.
  - intros p s i j S H. apply times_mono; [now apply (stagger_step p)|exact H].
  - intros p s i j S H B. apply times_strict; [now apply (stagger_step p)|exact H|exact B].
Qed.

Lemma configurations_and_stagger_witness :
  (nth_error (triggers (exec animateServiceCards scrolled_cards)) 1 =
     Some (mkTrigger (trigger_vars ServiceCard 6 1) false) /\
   lookup "delay" (target_vars ServiceCard 1) = Some (VNum (times 1 0.1))) /\
  (times 1 0.15 <= times 1 0.15)%Q /\
  (times 1 0.15 < times 2 0.15)%Q.
Proof.
  destruct configurations_and_stagger as (_ & H2 & _ & _ & H5 & H6).
  split; [|split].
  - destruct (H2 ServiceCard 0.1%Q eq_refl scrolled_cards 1 6 eq_refl)
      as (T & _ & _ & D).
    split; [exact T|exact D].
  - apply (H5 TestimonialCard 0.15%Q 1 1); [reflexivity|lia].
  - apply (H6 TestimonialCard 0.15%Q 1 2); [reflexivity|lia|reflexivity].
Defined.

(** As worded, C7 fails on the exit tween: the object passed to
    [gsap.to] by [pageExitAnimation] has an [onComplete] key, which is
    none of the settings. *)
Lemma exit_tween_config_has_callback :
  log (steps [Dispatch "astro:before-swap"] (boot main_only)) =
    [GsapRegisterPlugin;
     AddEventListener "astro:page-load" PageLoadListener;
     AddEventListener "astro:before-swap" BeforeSwapListener;
     GsapTo 1 (exit_vars (VFn SwapOnComplete))] /\
  keys (exit_vars (VFn SwapOnComplete)) =
    ["opacity"; "y"; "duration"; "ease"; "onComplete"] /\
  mem "onComplete" style_keys = false /\
  passes_settings_only (GsapTo 1 (exit_vars (VFn SwapOnComplete))) = false /\
  forallb passes_settings_only
    (log (steps [Dispatch "astro:before-swap"] (boot main_only))) = false.
Proof. repeat split. Qed.

(* ================================================================== *)
(** * Absent elements *)
(* ================================================================== *)

Lemma pageLoadAnimation_present (w : World) (m : Element) :
  hd_error (document w MAIN_CONTENT_SELECTOR) = Some m ->
  pageLoadAnimation w =
  (Done tt, extend [mkTween m main_target false] [] []
              [GsapSet [m] main_initial; GsapTo m main_target] w).
Proof.
  intros H. unfold pageLoadAnimation.
  rewrite (bind_done _ _ _ _ _ (query_present _ _ _ H)).
  destruct w as [d ls tws tls trs lg v].
  unfold extend, bind, gsap_set, gsap_to, bind, emit, set_log, set_tweens.
  cbn [document listeners tweens timelines triggers log in_view].
  now rewrite <- app_assoc, !app_nil_r.
Qed.

Lemma returns_bind {A B} (c : M A) (k : A -> M B) :
  (forall w, returns c w) -> (forall a w, returns (k a) w) ->
  forall w, returns (bind c k) w.
Proof.
  intros Hc Hk w. unfold returns, bind in *.
  destruct (Hc w) as [a Ha]. destruct (c w) as [[a'|e] w']; simpl in Ha; [|discriminate].
  apply Hk.
Qed.

Lemma returns_eq {A} (c : M A) (w w' : World) (a : A) :
  c w = (Done a, w') -> returns c w.
Proof. intros H. exists a. now rewrite H. Qed.

Lemma pageLoadAnimation_returns (w : World) : returns pageLoadAnimation w.
Proof.
  destruct (hd_error (document w MAIN_CONTENT_SELECTOR)) as [m|] eqn:H.
  - eapply returns_eq. apply pageLoadAnimation_present. exact H.
  - eapply returns_eq. apply pageLoadAnimation_absent.
    now destruct (document w MAIN_CONTENT_SELECTOR).
Qed.

(** [pageExitAnimation] returns whenever its argument does: a value that
    is no function is not called, and a function ends the call as it ends
    itself. *)
Lemma pageExitAnimation_returns (v : Value) (w : World) :
  (forall f, v = VFn f -> outcome_of f = Done tt) ->
  returns (pageExitAnimation v) w.
Proof.
  intros Hv. destruct (hd_error (document w MAIN_CONTENT_SELECTOR)) as [m|] eqn:H.
  - eapply returns_eq. apply pageExitAnimation_present. exact H.
  - assert (E : document w MAIN_CONTENT_SELECTOR = [])
      by now destruct (document w MAIN_CONTENT_SELECTOR).
    unfold returns. rewrite (pageExitAnimation_absent v w E).
    destruct v; try (eexists; reflexivity). apply apply_fn_returns. now apply Hv.
Qed.

Lemma onBeforeSwap_returns (w : World) : returns onBeforeSwap w.
Proof. apply pageExitAnimation_returns. now intros f [= <-]. Qed.

Lemma heroSectionAnimations_returns (w : World) : returns heroSectionAnimations w.
Proof.
  destruct (hd_error (document w ".gsap-hero-text-content")) as [t|] eqn:Ht.
  - destruct (hd_error (document w ".gsap-hero-image-container")) as [i|] eqn:Hi.
    + eapply returns_eq. apply heroSectionAnimations_present; eassumption.
    + eapply returns_eq. apply heroSectionAnimations_absent. right.
      now destruct (document w ".gsap-hero-image-container").
  - eapply returns_eq. apply heroSectionAnimations_absent. left.
    now destruct (document w ".gsap-hero-text-content").
Qed.

Lemma onPageLoad_returns (w : World) : returns onPageLoad w.
Proof.
  revert w. unfold onPageLoad.
  repeat (apply returns_bind; [|intros _]); intros w.
  - apply pageLoadAnimation_returns.
  - apply heroSectionAnimations_returns.
  - eapply returns_eq, animateServiceCards_eq.
  - eapply returns_eq, animateFeaturedWorkItems_eq.
  - eapply returns_eq, animateTestimonials_eq.
  - eapply returns_eq, animateCtaSection_eq.
Qed.

(** C2, as the code has it.  Each function acts on an element only after
    its query found it, and when the element (or the list) it asked for
    is absent it makes no engine call for it: [pageLoadAnimation],
    [animateServiceCards], [animateFeaturedWorkItems], [animateCtaSection]
    and the hero block leave the world as they found it, and
    [animateTestimonials] skips whichever of its two queries came back
    empty.  None of these raises an exception, in any world, nor do the
    two listeners.  [pageExitAnimation] is the exception to the silent
    no-op: without a main content it starts no animation, but it still
    calls [onComplete] when that is a function, and then it ends as that
    call ends, with what the function throws if it throws.  It returns
    whenever the main content is present, whenever [onComplete] is no
    function, and whenever the function returns. *)
Theorem absent_elements_are_skipped (w : World) :
  (returns pageLoadAnimation w /\
   returns heroSectionAnimations w /\
   returns animateServiceCards w /\
   returns animateFeaturedWorkItems w /\
   returns animateTestimonials w /\
   returns animateCtaSection w /\
   returns onPageLoad w /\
   returns onBeforeSwap w /\
   (forall v, (forall f, v = VFn f -> outcome_of f = Done tt) ->
      returns (pageExitAnimation v) w)) /\
  (document w MAIN_CONTENT_SELECTOR = [] ->
     pageLoadAnimation w = (Done tt, w) /\
     (forall v, pageExitAnimation v w =
                match v with VFn f => apply_fn f w | _ => (Done tt, w) end) /\
     (forall f, fst (pageExitAnimation (VFn f) w) = outcome_of f)) /\
  (forall m, hd_error (document w MAIN_CONTENT_SELECTOR) = Some m ->
     log (exec pageLoadAnimation w) =
       log w ++ [GsapSet [m] [("opacity", VNum 0); ("y", VNum 20)];
                 GsapTo m [("opacity", VNum 1); ("y", VNum 0);
                           ("duration", VNum 0.5); ("ease", VStr "power2.out")]] /\
     forall v, pageExitAnimation v w = (Done tt, exit_started m v w) /\
               log (exec (pageExitAnimation v) w) = log w ++ [GsapTo m (exit_vars v)]) /\
  (document w ".gsap-hero-text-content" = [] \/
   document w ".gsap-hero-image-container" = [] ->
     heroSectionAnimations w = (Done tt, w)) /\
  (document w ".gsap-service-card" = [] -> animateServiceCards w = (Done tt, w)) /\
  (document w ".gsap-featured-work-item" = [] ->
     animateFeaturedWorkItems w = (Done tt, w)) /\
  (document w ".gsap-testimonial-card" = [] ->
     animateTestimonials w = (Done tt, register_first TestimonialsCta w)) /\
  (document w ".gsap-testimonials-cta" = [] ->
     animateTestimonials w = (Done tt, register_all TestimonialCard w)) /\
  (document w ".gsap-cta-section" = [] -> animateCtaSection w = (Done tt, w)).
Proof.
  split; [|split; [|split; [|split; [|split; [|split; [|split; [|split]]]]]]].
  - split; [apply pageLoadAnimation_returns|].
    split; [apply heroSectionAnimations_returns|].
    split; [eapply returns_eq, animateServiceCards_eq|].
    split; [eapply returns_eq, animateFeaturedWorkItems_eq|].
    split; [eapply returns_eq, animateTestimonials_eq|].
    split; [eapply returns_eq, animateCtaSection_eq|].
    split; [apply onPageLoad_returns|].
    split; [apply onBeforeSwap_returns|].
    intros v Hv. now apply pageExitAnimation_returns.
  - intros H. split; [now apply pageLoadAnimation_absent|]. split.
    + intros v. now apply pageExitAnimation_absent.
    + intros f. rewrite (pageExitAnimation_absent (VFn f) w H).
      apply apply_fn_outcome.
  - intros m H. unfold exec. rewrite (pageLoadAnimation_present w m H).
    split; [reflexivity|]. intros v. now rewrite (pageExitAnimation_present v w m H).
  - apply heroSectionAnimations_absent.
  - apply animateServiceCards_absent.
  - apply animateFeaturedWorkItems_absent.
  - intros H. rewrite animateTestimonials_eq. unfold register_all.
    cbn [selector]. now rewrite H.
  - intros H. rewrite animateTestimonials_eq. unfold register_first, register_all.
    rewrite register_from_document. cbn [selector]. now rewrite H.
  - apply animateCtaSection_absent.
Qed.

Lemma absent_elements_are_skipped_witness :
  pageLoadAnimation (fresh hero_text_only) = (Done tt, fresh hero_text_only) /\
  pageExitAnimation VNull (fresh hero_text_only) = (Done tt, fresh hero_text_only) /\
  fst (pageExitAnimation (VFn throwing) (fresh hero_text_only)) = Raised TypeError /\
  heroSectionAnimations (fresh hero_text_only) = (Done tt, fresh hero_text_only) /\
  animateTestimonials (fresh hero_text_only) = (Done tt, fresh hero_text_only) /\
  log (exec (pageExitAnimation VNull) (fresh main_only)) = [GsapTo 1 (exit_vars VNull)] /\
  returns (pageExitAnimation VNull) (fresh main_only).
Proof.
  destruct (absent_elements_are_skipped (fresh hero_text_only))
    as (_ & H1 & _ & H3 & _ & _ & H6 & _ & _).
  destruct (H1 eq_refl) as (H1a & H1b & H1c).
  split; [exact H1a|]. split; [exact (H1b VNull)|]. split; [exact (H1c throwing)|].
  split; [apply H3; right; reflexivity|]. split; [exact (H6 eq_refl)|].
  destruct (absent_elements_are_skipped (fresh main_only)) as (R & _ & H2 & _).
  split; [exact (proj2 (proj2 (H2 1 eq_refl) VNull))|].
  destruct R as (_ & _ & _ & _ & _ & _ & _ & _ & R). apply R. discriminate.
Defined.

(** As worded, C2 makes absence a silent no-op in every function.
    For [pageExitAnimation] it is not: with no main content in the
    document, it calls the function it was given. *)
Lemma pageExitAnimation_absent_still_calls :
  document (fresh empty_document) MAIN_CONTENT_SELECTOR = [] /\
  pageExitAnimation (VFn (HostFn 7 None)) (fresh empty_document) =
    (Done tt, mkWorld empty_document [] [] [] [] [HostCall 7] nothing_in_view) /\
  pageExitAnimation (VFn (HostFn 7 None)) (fresh empty_document) <>
    (Done tt, fresh empty_document).
Proof. repeat split. discriminate. Qed.
(* ================================================================== *)
(** * Page exit: when the callback runs *)
(* ================================================================== *)

Lemma after_completion_quiet (id k : nat) (l : list Event) :
  Forall (quiet id) l -> after_completion id k l.
Proof.
  intros F pre post ->. apply Forall_app in F as [_ F].
  inversion F as [|? ? Q _]. now destruct Q.
Qed.

Lemma after_completion_app (id k : nat) (l1 l2 : list Event) :
  after_completion id k l1 -> after_completion id k l2 ->
  after_completion id k (l1 ++ l2).
Proof.
  intros H1 H2 pre post E.
  apply app_eq_app in E as [l [[E1 E2]|[E1 E2]]].
  - destruct l as [|x l].
    + simpl in E2. destruct (H2 [] post) as [pre' P]; [now rewrite <- E2|].
      now destruct (app_cons_not_nil pre' [] (TweenComplete k)).
    + injection E2 as <- _. now apply (H1 pre l).
  - destruct (H2 l post E2) as [pre' ->]. exists (l1 ++ pre').
    now rewrite E1, app_assoc.
Qed.

Lemma after_completion_callback (id k : nat) :
  after_completion id k [TweenComplete k; HostCall id].
Proof.
  intros [|a [|b pre]] post E; simpl in E.
  - discriminate.
  - injection E as <- _. now exists [].
  - injection E as _ _ E. now destruct (app_cons_not_nil pre post (HostCall id)).
Qed.

Lemma onPageLoad_clean (id : nat) :
  effect (quiet id) (clean_tween id) (clean_trigger id) onPageLoad.
Proof.
  unfold onPageLoad, pageLoadAnimation, heroSectionAnimations,
    animateServiceCards, animateFeaturedWorkItems, animateTestimonials,
    animateCtaSection.
  cbv zeta. effects; first [exact I | reflexivity].
Qed.

Lemma onBeforeSwap_clean (id : nat) :
  effect (quiet id) (clean_tween id) (clean_trigger id) onBeforeSwap.
Proof.
  unfold onBeforeSwap, pageExitAnimation. effects; first [exact I | reflexivity].
Qed.

Lemma apply_fn_clean (id : nat) (f : Fn) :
  fn_mentions id f = false ->
  effect (quiet id) (clean_tween id) (clean_trigger id) (apply_fn f).
Proof.
  induction f using Fn_Value_ind
    with (P := fun v => mentions id v = false ->
                 effect (quiet id) (clean_tween id) (clean_trigger id) (call v));
    simpl; intros H; try apply effect_raise; auto;
    try (effects; first [exact I | reflexivity]).
  - effects. apply effect_emit. simpl. now apply Nat.eqb_neq.
  - rewrite guarded_call. destruct onComplete; try apply effect_ret.
    now apply IHf.
Qed.

Lemma call_clean (id : nat) (v : Value) :
  mentions id v = false ->
  effect (quiet id) (clean_tween id) (clean_trigger id) (call v).
Proof.
  destruct v; intros H; try apply effect_raise. now apply apply_fn_clean.
Qed.

Lemma lookup_clean (id : nat) (key : string) (vars : Config) (v : Value) :
  cfg_mentions id vars = false -> lookup key vars = Some v -> mentions id v = false.
Proof.
  induction vars as [|[k x] vars IH]; simpl; [discriminate|].
  intros H. apply orb_false_iff in H as [H1 H2].
  destruct (k =? key); [now intros [= <-]|now apply IH].
Qed.

Lemma grows_awaiting (id k : nat) (base : list Event) (w w' : World) :
  grows (quiet id) (clean_tween id) (clean_trigger id) w w' ->
  awaiting id k base w -> awaiting id k base w'.
Proof.
  intros [_ _ (evs & E & Fe) (tws & T & Fw) (trs & R & Ft) _]
         [(tw & r & N & V) O G (new & L & A)].
  assert (K : k < length (tweens w)) by (apply nth_error_Some; congruence).
  constructor.
  - exists tw, r. rewrite T, nth_error_app1 by assumption. auto.
  - intros j x Hj Hx. rewrite T in Hx.
    destruct (Nat.lt_ge_cases j (length (tweens w))) as [Hlt|Hge].
    + rewrite nth_error_app1 in Hx by assumption. now apply (O j).
    + rewrite nth_error_app2 in Hx by assumption. apply nth_error_In in Hx.
      rewrite Forall_forall in Fw. now apply Fw.
  - rewrite R. apply Forall_app. now split.
  - exists (new ++ evs). rewrite E, L, app_assoc. split; [reflexivity|].
    apply after_completion_app; [assumption|]. now apply after_completion_quiet.
Qed.

(** A step of the engine that extends the log and flips flags. *)
Lemma awaiting_tick (id k : nat) (base : list Event) (w w' : World)
    (evs : list Event) (n t : nat) :
  tweens w' = update_nth n finish (tweens w) \/ tweens w' = tweens w ->
  triggers w' = update_nth t disarm (triggers w) \/ triggers w' = triggers w ->
  log w' = log w ++ evs -> after_completion id k evs ->
  awaiting id k base w -> awaiting id k base w'.
Proof.
  intros T R L Q [(tw & r & N & V) O G (new & E & A)].
  assert (NT : forall j, nth_error (tweens w') j = nth_error (tweens w) j \/
                         nth_error (tweens w') j = option_map finish (nth_error (tweens w) j)).
  { intros j. destruct T as [-> | ->]; [|now left].
    rewrite nth_error_update_nth. destruct (n =? j)%nat; auto. }
  constructor.
  - destruct (NT k) as [-> | ->]; [now exists tw, r|].
    rewrite N. exists (finish tw), r. auto.
  - intros j x Hj Hx. destruct (NT j) as [Ej|Ej]; rewrite Ej in Hx.
    + now apply (O j).
    + destruct (nth_error (tweens w) j) as [y|] eqn:Y; [|discriminate].
      injection Hx as <-. now apply (O j y).
  - destruct R as [-> | ->]; [|assumption]. apply Forall_update_nth; auto.
  - exists (new ++ evs). rewrite L, E, app_assoc. split; [reflexivity|].
    now apply after_completion_app.
Qed.

Lemma complete_tween_awaiting (id k : nat) (base : list Event) (j : nat) (w : World) :
  awaiting id k base w -> awaiting id k base (exec (complete_tween j) w).
Proof.
  intros W. unfold exec. rewrite complete_tween_eq.
  destruct (nth_error (tweens w) j) as [tw|] eqn:N; [|exact W].
  destruct (tw_done tw); [exact W|].
  destruct (Nat.eq_dec j k) as [->|Hj].
  - destruct (aw_tween _ _ _ _ W) as (tw' & r & N' & V).
    rewrite N in N'. injection N' as <-. rewrite V.
    change (lookup "onComplete" (exit_vars (VFn (HostFn id r))))
      with (Some (VFn (ExitOnComplete (VFn (HostFn id r))))).
    apply (awaiting_tick id k base w _ [TweenComplete k; HostCall id] k 0);
      [left; now destruct r|right; now destruct r|
       |apply after_completion_callback|exact W].
    destruct r; simpl; now rewrite <- app_assoc.
  - assert (F : awaiting id k base (finished j w)).
    { apply (awaiting_tick id k base w _ [TweenComplete j] j 0);
        [left; reflexivity|right; reflexivity|reflexivity| |exact W].
      apply after_completion_quiet. repeat constructor. }
    destruct (lookup "onComplete" (tw_vars tw)) as [cb|] eqn:C; [|exact F].
    eapply grows_awaiting; [|exact F]. apply call_clean.
    eapply lookup_clean; [|exact C]. now apply (aw_others _ _ _ _ W j).
Qed.

Lemma enter_viewport_awaiting (id k : nat) (base : list Event) (t : nat) (w : World) :
  awaiting id k base w -> awaiting id k base (exec (enter_viewport t) w).
Proof.
  intros W. unfold exec. rewrite enter_viewport_eq.
  destruct (nth_error (triggers w) t) as [tr|] eqn:N; [|exact W].
  destruct (st_alive tr); [|exact W].
  assert (F : awaiting id k base (entered t (lookup "once" (st_vars tr)) w)).
  { apply (awaiting_tick id k base w _ [TriggerEnter t] 0 t);
      [right|
       |
       |apply after_completion_quiet; repeat constructor|exact W];
      unfold entered;
      destruct (lookup "once" (st_vars tr)) as [[| |[|]| | | | |]|]; auto. }
  destruct (lookup "onEnter" (st_vars tr)) as [cb|] eqn:C; [|exact F].
  eapply grows_awaiting; [|exact F]. apply call_clean.
  eapply lookup_clean; [|exact C].
  pose proof (aw_triggers _ _ _ _ W) as G. rewrite Forall_forall in G.
  apply G. eapply nth_error_In; eassumption.
Qed.

Lemma step_awaiting (id k : nat) (base : list Event) (a : Action) (w : World) :
  awaiting id k base w -> awaiting id k base (exec (step a) w).
Proof.
  destruct a as [d|type|j|t|v]; intros W.
  - destruct W. now constructor.
  - eapply grows_awaiting; [|exact W].
    apply dispatchEvent_effect; [apply onPageLoad_clean|apply onBeforeSwap_clean].
  - now apply complete_tween_awaiting.
  - now apply enter_viewport_awaiting.
  - destruct W. now constructor.
Qed.

Lemma steps_awaiting (id k : nat) (base : list Event) (acts : list Action) :
  forall w, awaiting id k base w -> awaiting id k base (steps acts w).
Proof.
  induction acts as [|a acts IH]; intros w W; simpl; [exact W|].
  apply IH. now apply step_awaiting.
Qed.

Lemma exit_started_awaiting (id : nat) (r : option Exn) (m : Element) (w : World) :
  Forall (clean_tween id) (tweens w) ->
  Forall (clean_trigger id) (triggers w) ->
  awaiting id (length (tweens w)) (log (exit_started m (VFn (HostFn id r)) w))
    (exit_started m (VFn (HostFn id r)) w).
Proof.
  intros Fw Ft. constructor; cbn [exit_started tweens triggers log].
  - eexists. exists r. split; [apply nth_error_last|reflexivity].
  - intros j tw Hj N.
    destruct (Nat.lt_ge_cases j (length (tweens w))) as [Hlt|Hge].
    + rewrite nth_error_app1 in N by assumption. apply nth_error_In in N.
      rewrite Forall_forall in Fw. now apply Fw.
    + rewrite nth_error_app2 in N by assumption.
      destruct (j - length (tweens w)) as [|[|n]] eqn:D; simpl in N; try discriminate.
      lia.
  - assumption.
  - exists []. rewrite app_nil_r. split; [reflexivity|].
    apply after_completion_quiet. constructor.
Qed.

(** C4.  Let [pageExitAnimation] be called with a caller's function
    while ['#main-content'] is present, in a world where nothing yet holds
    that function.  The call starts the exit animation (a tween of the main
    content to opacity 0 and 20 pixels up, over 0.3 seconds) and returns
    without invoking the function.  When the engine completes that tween,
    the function is invoked, directly after the completion, whether it
    then returns or throws.  And whatever
    happens to the page afterwards (navigation, lifecycle events, other
    tweens completing, elements entering the viewport), every invocation of
    the function recorded in the log comes directly after the completion
    of the exit tween. *)
Theorem callback_follows_exit_animation (w : World) (m : Element) (id : nat)
    (raises : option Exn) :
  hd_error (document w MAIN_CONTENT_SELECTOR) = Some m ->
  Forall (clean_tween id) (tweens w) ->
  Forall (clean_trigger id) (triggers w) ->
  let k := length (tweens w) in
  let vars := exit_vars (VFn (HostFn id raises)) in
  let w1 := exit_started m (VFn (HostFn id raises)) w in
  pageExitAnimation (VFn (HostFn id raises)) w = (Done tt, w1) /\
  log w1 = log w ++ [GsapTo m vars] /\
  nth_error (tweens w1) k = Some (mkTween m vars false) /\
  (lookup "opacity" vars = Some (VNum 0) /\
   lookup "y" vars = Some (VNum (-20)) /\
   lookup "duration" vars = Some (VNum 0.3)) /\
  log (exec (complete_tween k) w1) = log w1 ++ [TweenComplete k; HostCall id] /\
  forall acts pre post,
    log (steps acts w1) = log w1 ++ pre ++ HostCall id :: post ->
    exists pre', pre = pre' ++ [TweenComplete k].
Proof.
  intros H Fw Ft k vars w1.
  split; [now apply pageExitAnimation_present|].
  split; [reflexivity|]. split; [apply nth_error_last|].
  split; [repeat split|]. split.
  - unfold exec, w1, k. rewrite exit_tween_completes, finished_exit_started.
    destruct raises; cbn [apply_fn bind emit raise ret snd set_log log exit_started];
      now rewrite <- !app_assoc.
  - intros acts pre post L.
    destruct (steps_awaiting id k (log w1) acts w1
                (exit_started_awaiting id raises m w Fw Ft))
      as [_ _ _ (new & E & A)].
    rewrite E in L. apply app_inv_head in L. now apply (A pre post).
Qed.

Lemma callback_follows_exit_animation_witness :
  pageExitAnimation (VFn (HostFn 7 None)) (boot main_only) =
    (Done tt, exit_started 1 (VFn (HostFn 7 None)) (boot main_only)) /\
  log (exec (complete_tween 0) (exit_started 1 (VFn (HostFn 7 None)) (boot main_only))) =
    log (exit_started 1 (VFn (HostFn 7 None)) (boot main_only)) ++
    [TweenComplete 0; HostCall 7].
Proof.
  destruct (callback_follows_exit_animation (boot main_only) 1 7 None eq_refl
              (Forall_nil _) (Forall_nil _)) as (H1 & _ & _ & _ & H5 & _).
  split; [exact H1|exact H5].
Defined.


(* ================================================================== *)
(** * One page load, spelled out *)
(* ================================================================== *)

Lemma pageLoadAnimation_extend (w : World) :
  pageLoadAnimation w =
  (Done tt, extend (main_tweens (document w)) [] [] (main_events (document w)) w).
Proof.
  unfold main_tweens, main_events.
  destruct (hd_error (document w MAIN_CONTENT_SELECTOR)) as [m|] eqn:H.
  - now rewrite (pageLoadAnimation_present w m H).
  - rewrite extend_nothing. apply pageLoadAnimation_absent.
    now destruct (document w MAIN_CONTENT_SELECTOR).
Qed.

Lemma heroSectionAnimations_extend (w : World) :
  heroSectionAnimations w =
  (Done tt,
   extend [] (hero_timelines (document w)) []
     (hero_events (document w) (length (timelines w))) w).
Proof.
  unfold hero_timelines, hero_events, hero_elements.
  destruct (hd_error (document w ".gsap-hero-text-content")) as [t|] eqn:Ht.
  - destruct (hd_error (document w ".gsap-hero-image-container")) as [i|] eqn:Hi.
    + rewrite (heroSectionAnimations_present w t i Ht Hi).
      unfold hero_started, extend. now rewrite !app_nil_r.
    + rewrite extend_nothing. apply heroSectionAnimations_absent. right.
      now destruct (document w ".gsap-hero-image-container").
  - rewrite extend_nothing. apply heroSectionAnimations_absent. left.
    now destruct (document w ".gsap-hero-text-content").
Qed.

Lemma register_part_extend (p : Part) (w : World) :
  register_part p w =
  extend (tweens_from (in_view w) p 0 (elements_of p (document w))) []
    (triggers_from (in_view w) p 0 (elements_of p (document w)))
    (events_from (in_view w) p 0 (length (triggers w)) (elements_of p (document w))) w.
Proof.
  destruct p; cbn [register_part elements_of];
    first [apply register_from_extend | apply register_first_extend].
Qed.

Lemma load_parts_extend (ps : list Part) :
  forall w,
    fold_left (fun w p => register_part p w) ps w =
    extend (flat_map (fun p => tweens_from (in_view w) p 0 (elements_of p (document w))) ps)
      []
      (flat_map (fun p => triggers_from (in_view w) p 0 (elements_of p (document w))) ps)
      (part_events (document w) (in_view w) (length (triggers w)) ps) w.
Proof.
  induction ps as [|p ps IH]; intros w; cbn [fold_left flat_map part_events].
  - symmetry. apply extend_nothing.
  - rewrite IH, register_part_extend, extend_extend.
    cbn [extend document in_view triggers].
    now rewrite length_app, length_triggers_from.
Qed.

Lemma onPageLoad_world (w : World) : onPageLoad w = (Done tt, page_loaded w).
Proof.
  unfold onPageLoad.
  rewrite (bind_done _ _ _ _ _ (pageLoadAnimation_extend w)).
  rewrite (bind_done _ _ _ _ _ (heroSectionAnimations_extend _)).
  rewrite (bind_done _ _ _ _ _ (animateServiceCards_eq _)).
  rewrite (bind_done _ _ _ _ _ (animateFeaturedWorkItems_eq _)).
  rewrite (bind_done _ _ _ _ _ (animateTestimonials_eq _)).
  rewrite animateCtaSection_eq. f_equal.
  match goal with
  | |- context [register_all ServiceCard ?x] =>
      change (fold_left (fun w p => register_part p w) parts x = page_loaded w)
  end.
  rewrite load_parts_extend, !extend_extend.
  cbn [extend document in_view triggers timelines].
  unfold page_loaded, page_load_tweens, page_load_triggers, page_load_events.
  cbn [app]. now rewrite !app_nil_r.
Qed.

Lemma dispatch_page_load_world (w : World) :
  listeners w = two_listeners ->
  exec (step (Dispatch "astro:page-load")) w = page_loaded w.
Proof.
  intros H. unfold exec. cbn [step].
  now rewrite (dispatch_page_load w H), onPageLoad_world.
Qed.

(** X1.  One run of the page-load listener is fully determined by the
    document and by which elements are in view at that moment.  It calls
    the engine for the main content, then the hero block, then the service
    cards, the featured work items, the testimonial cards, the
    testimonials call to action and the call-to-action section, in that
    order and each list in document order; an element that is already in
    view has its trigger fire as soon as it is created, before the next
    element is handled.  The run adds the tween of the main content, one
    tween per element in view, at most one timeline and one trigger per
    element found, after what the world already held, and changes nothing
    else.  This is what dispatching ['astro:page-load'] does in every
    world the page can reach. *)
Theorem page_load_in_order :
  (forall w, onPageLoad w = (Done tt, page_loaded w)) /\
  (forall w,
     let d := document w in
     let v := in_view w in
     let cards := d ".gsap-service-card" in
     let items := d ".gsap-featured-work-item" in
     let quotes := d ".gsap-testimonial-card" in
     let cta := to_list (hd_error (d ".gsap-testimonials-cta")) in
     let section := to_list (hd_error (d ".gsap-cta-section")) in
     let t := length (triggers w) in
     document (page_loaded w) = d /\
     listeners (page_loaded w) = listeners w /\
     in_view (page_loaded w) = v /\
     tweens (page_loaded w) =
       tweens w ++ main_tweens d ++
       tweens_from v ServiceCard 0 cards ++
       tweens_from v FeaturedWorkItem 0 items ++
       tweens_from v TestimonialCard 0 quotes ++
       tweens_from v TestimonialsCta 0 cta ++
       tweens_from v CtaSection 0 section /\
     timelines (page_loaded w) = timelines w ++ hero_timelines d /\
     triggers (page_loaded w) =
       triggers w ++
       triggers_from v ServiceCard 0 cards ++
       triggers_from v FeaturedWorkItem 0 items ++
       triggers_from v TestimonialCard 0 quotes ++
       triggers_from v TestimonialsCta 0 cta ++
       triggers_from v CtaSection 0 section /\
     log (page_loaded w) =
       log w ++
       main_events d ++
       hero_events d (length (timelines w)) ++
       events_from v ServiceCard 0 t cards ++
       events_from v FeaturedWorkItem 0 (t + length cards) items ++
       events_from v TestimonialCard 0 (t + length cards + length items) quotes ++
       events_from v TestimonialsCta 0
         (t + length cards + length items + length quotes) cta ++
       events_from v CtaSection 0
         (t + length cards + length items + length quotes + length cta) section) /\
  (forall d acts,
     exec (step (Dispatch "astro:page-load")) (steps acts (boot d)) =
     page_loaded (steps acts (boot d))).
Proof.
  split; [exact onPageLoad_world|]. split.
  - intros w. cbv zeta.
    unfold page_loaded, extend, page_load_tweens, page_load_triggers, page_load_events.
    cbn [document listeners tweens timelines triggers log in_view flat_map parts
         part_events elements_of selector].
    rewrite !app_nil_r. repeat split; reflexivity.
  - intros d acts. apply dispatch_page_load_world.
    apply (sw_listeners _ (reachable_script_world d acts)).
Qed.

(* ================================================================== *)
(** * How much a page load registers *)
(* ================================================================== *)

Lemma length_tweens_from (v : Viewport) (p : Part) (els : list Element) :
  forall i,
    length (tweens_from v p i els) = length (entered_from v p i els).
Proof.
  induction els as [|el els IH]; intros i; cbn [tweens_from entered_from];
    [reflexivity|].
  rewrite !length_app, IH. now destruct (v (trigger_vars p el i)).
Qed.

Lemma length_page_load_triggers (d : Document) (v : Viewport) :
  length (page_load_triggers d v) = trigger_count d.
Proof.
  unfold page_load_triggers, trigger_count.
  cbn [flat_map parts elements_of selector].
  rewrite !length_app, !length_triggers_from. simpl. lia.
Qed.

Lemma length_page_load_tweens (d : Document) (v : Viewport) :
  length (page_load_tweens d v) =
  length (to_list (hd_error (d MAIN_CONTENT_SELECTOR))) + length (in_view_now d v).
Proof.
  unfold page_load_tweens, in_view_now, main_tweens. rewrite length_app. f_equal.
  - now destruct (hd_error (d MAIN_CONTENT_SELECTOR)).
  - induction parts as [|p ps IH]; cbn [flat_map]; [reflexivity|].
    now rewrite !length_app, length_tweens_from, IH.
Qed.

Lemma repeated_page_loads (k : nat) :
  forall w,
    listeners w = two_listeners ->
    let w' := steps (repeat (Dispatch "astro:page-load") k) w in
    listeners w' = two_listeners /\
    document w' = document w /\
    length (triggers w') = length (triggers w) + k * trigger_count (document w).
Proof.
  induction k as [|k IH]; intros w H; cbn [repeat steps].
  - cbv zeta. repeat split; auto.
  - rewrite (dispatch_page_load_world w H).
    destruct (IH (page_loaded w) H) as (L & D & N).
    split; [exact L|]. split; [exact D|]. rewrite N.
    unfold page_loaded, extend. cbn [triggers document].
    rewrite length_app, length_page_load_triggers. lia.
Qed.

(** X2.  In every world the page can reach, one page load registers
    exactly one trigger per service card, per featured work item and per
    testimonial card, and one for the first testimonials call to action
    and the first call-to-action section, if any; it starts one tween if
    there is a main content and one more for each of those elements that
    is already in view, and creates one timeline if the hero text and
    image exist.  Nothing is registered in place of what was there:
    loading the same document [k] times in a row leaves [k] times as many
    triggers. *)
Theorem page_load_registers (d : Document) :
  (forall acts,
     let w := steps acts (boot d) in
     let w' := exec (step (Dispatch "astro:page-load")) w in
     length (triggers w') = length (triggers w) + trigger_count (document w) /\
     length (tweens w') =
       length (tweens w) +
       length (to_list (hd_error (document w MAIN_CONTENT_SELECTOR))) +
       length (in_view_now (document w) (in_view w)) /\
     length (timelines w') =
       length (timelines w) +
       match hd_error (document w ".gsap-hero-text-content"),
             hd_error (document w ".gsap-hero-image-container") with
       | Some _, Some _ => 1
       | _, _ => 0
       end) /\
  (forall k,
     length (triggers (steps (repeat (Dispatch "astro:page-load") k) (boot d))) =
     k * trigger_count d).
Proof.
  split.
  - intros acts. cbv zeta.
    rewrite (dispatch_page_load_world _
               (sw_listeners _ (reachable_script_world d acts))).
    set (w := steps acts (boot d)).
    unfold page_loaded, extend. cbn [triggers tweens timelines].
    rewrite !length_app, length_page_load_triggers, length_page_load_tweens.
    unfold hero_timelines, hero_elements.
    repeat split.
    + lia.
    + destruct (hd_error (document w ".gsap-hero-text-content"));
        destruct (hd_error (document w ".gsap-hero-image-container")); reflexivity.
  - intros k. destruct (repeated_page_loads k (boot d) eq_refl) as (_ & _ & N).
    exact N.
Qed.

(* ================================================================== *)
(** * What of the document the script looks at *)
(* ================================================================== *)




(* ================================================================== *)
(** * Hidden, then revealed *)
(* ================================================================== *)

Lemma revealed_in_incl (evs evs' : list Event) (e : Element) (hide : Config) :
  incl evs evs' -> revealed_in evs e hide -> revealed_in evs' e hide.
Proof.
  intros I [(vars & H & R)|[(tl & vars & pos & H & R)|(cfg & f & vars & H & R)]].
  - left. exists vars. auto.
  - right. left. exists tl, vars, pos. auto.
  - right. right. exists cfg, f, vars. auto.
Qed.

Lemma reveals_follow_app (l1 l2 : list Event) :
  reveals_follow l1 -> reveals_follow l2 -> reveals_follow (l1 ++ l2).
Proof.
  intros H1 H2. induction l1 as [|x l1 IH]; [exact H2|].
  destruct x; simpl in *; auto.
  destruct H1 as [R H1]. split; [|now apply IH].
  intros e He. apply (revealed_in_incl l1); [apply incl_appl, incl_refl|auto].
Qed.

Lemma reveals_follow_decomposed (evs : list Event) :
  reveals_follow evs -> hides_then_reveals evs.
Proof.
  intros H pre. revert evs H.
  induction pre as [|x pre IH]; intros evs H targets hide post e -> He.
  - simpl in H. now apply H.
  - apply (IH (pre ++ GsapSet targets hide :: post)) with (targets := targets);
      auto.
    simpl in H. destruct x; tauto.
Qed.

Lemma restores_part (p : Part) (index : nat) :
  restores (initial p) (target_vars p index).
Proof.
  destruct p; intros key H; simpl in H;
    repeat (destruct H as [<-|H]; [reflexivity|]); destruct H.
Qed.

Lemma restores_main : restores main_initial main_target.
Proof.
  intros key H; simpl in H;
    repeat (destruct H as [<-|H]; [reflexivity|]); destruct H.
Qed.

Lemma restores_hero (duration : Q) : restores hero_initial (hero_vars duration).
Proof.
  intros key H; simpl in H;
    repeat (destruct H as [<-|H]; [reflexivity|]); destruct H.
Qed.

Lemma events_from_reveal (v : Viewport) (p : Part) (els : list Element) :
  forall i t, reveals_follow (events_from v p i t els).
Proof.
  induction els as [|el els IH]; intros i t; cbn [events_from]; [exact I|].
  split.
  - intros e [<-|[]]. right. right.
    exists (trigger_vars p el i), (on_enter p el i), (target_vars p i).
    destruct (trigger_vars_entries p el i) as (T & _ & E).
    split; [now left|]. split; [exact T|]. split; [exact E|].
    split; [apply on_enter_eq|apply restores_part].
  - cbn [reveals_follow].
    destruct (v (trigger_vars p el i)); cbn [app reveals_follow]; apply IH.
Qed.

Lemma part_events_reveal (d : Document) (v : Viewport) (ps : list Part) :
  forall t, reveals_follow (part_events d v t ps).
Proof.
  induction ps as [|p ps IH]; intros t; cbn [part_events]; [exact I|].
  apply reveals_follow_app; [apply events_from_reveal|apply IH].
Qed.

Lemma main_events_reveal (d : Document) : reveals_follow (main_events d).
Proof.
  unfold main_events. destruct (hd_error (d MAIN_CONTENT_SELECTOR)) as [m|]; simpl; auto.
  split; [|exact I]. intros e [<-|[]]. left. exists main_target.
  split; [now left|apply restores_main].
Qed.

Lemma hero_events_reveal (d : Document) (tl : nat) : reveals_follow (hero_events d tl).
Proof.
  unfold hero_events. destruct (hero_elements d) as [[[text image] trustedBy]|];
    [|exact I].
  cbn [app reveals_follow]. split.
  - intros e He. right. left. simpl in He.
    destruct He as [<-|[<-|He]].
    + exists tl, (hero_vars 0.6), AtEnd. split; [simpl; auto|apply restores_hero].
    + exists tl, (hero_vars 0.6), (BeforeEnd 0.4).
      split; [simpl; auto|apply restores_hero].
    + destruct trustedBy as [tb|]; simpl in He; [|contradiction].
      destruct He as [<-|[]].
      exists tl, (hero_vars 0.5), (BeforeEnd 0.3).
      split; [simpl; auto|apply restores_hero].
  - now destruct trustedBy.
Qed.

(** X4.  Whatever the document and the viewport, a page load hides
    nothing for good.  For every [gsap.set] the page-load listener makes
    and each of its targets, a later call of the same run brings every
    property that was set back to rest (opacity or visibility 1, offset 0,
    scale 1) on that target: the tween of the main content, the element's
    step on the hero timeline, or the [onEnter] function of the trigger
    registered on that element. *)
Theorem page_load_hides_then_reveals (w : World) :
  exists evs,
    log (exec onPageLoad w) = log w ++ evs /\
    hides_then_reveals evs.
Proof.
  unfold exec. rewrite onPageLoad_world.
  exists (page_load_events (document w) (in_view w) (length (timelines w))
            (length (triggers w))).
  split; [reflexivity|].
  apply reveals_follow_decomposed. unfold page_load_events.
  apply reveals_follow_app; [apply main_events_reveal|].
  apply reveals_follow_app; [apply hero_events_reveal|apply part_events_reveal].
Qed.

(* ================================================================== *)
(** * No step of the page raises *)
(* ================================================================== *)

Lemma run_listeners_returns (type : string) (ls : list (string * Listener)) :
  forall w, returns (run_listeners type ls) w.
Proof.
  induction ls as [|[ty l] ls IH]; simpl.
  - intros w. now exists tt.
  - apply returns_bind; [|intros _; exact IH].
    intros w. destruct (ty =? type); [|now exists tt].
    destruct l; [apply onPageLoad_returns|apply onBeforeSwap_returns].
Qed.

Lemma enter_closure_returns (f : Fn) :
  enter_closure f = true -> outcome_of f = Done tt.
Proof. destruct f; try discriminate; reflexivity. Qed.

Lemma script_world_step_returns (a : Action) (w : World) :
  script_world w -> returns (step a) w.
Proof.
  intros [_ sw st _]. destruct a as [d|type|k|t|v]; cbn [step].
  - now exists tt.
  - apply run_listeners_returns.
  - unfold returns. rewrite complete_tween_eq.
    destruct (nth_error (tweens w) k) as [tw|] eqn:N; [|now exists tt].
    destruct (tw_done tw); [now exists tt|].
    rewrite Forall_forall in sw.
    destruct (script_tween_callback tw (sw tw (nth_error_In _ _ N))) as [-> | ->];
      now exists tt.
  - unfold returns. rewrite enter_viewport_eq.
    destruct (nth_error (triggers w) t) as [tr|] eqn:N; [|now exists tt].
    destruct (st_alive tr); [|now exists tt].
    rewrite Forall_forall in st.
    destruct (trigger_cfg_entries _ (st tr (nth_error_In _ _ N))) as (_ & f & E & Hf).
    rewrite E. apply apply_fn_returns. now apply enter_closure_returns.
  - now exists tt.
Qed.

(** X5.  On a page that runs the script, nothing ever raises: in every
    world the page can reach, a navigation, the dispatch of any event, the
    completion of any tween and the entry of any trigger's element all
    return normally.  Every [onComplete] and [onEnter] the script hands to
    the engine is a function, and none of them calls what is not one. *)
Theorem page_never_raises (d : Document) (acts : list Action) (a : Action) :
  returns (step a) (steps acts (boot d)).
Proof.
  apply script_world_step_returns, reachable_script_world.
Qed.

(** Outside such a page the engine can fail: a tween whose [onComplete]
    is not a function raises when it completes. *)
Lemma foreign_tween_raises :
  complete_tween 0
    (mkWorld empty_document [] [mkTween 1 [("onComplete", VNum 1)] false] [] [] []
       nothing_in_view) =
  (Raised TypeError,
   mkWorld empty_document [] [mkTween 1 [("onComplete", VNum 1)] true] [] []
     [TweenComplete 0] nothing_in_view).
Proof. reflexivity. Qed.

(* ================================================================== *)
(** * The before-swap listener *)
(* ================================================================== *)

(** X7.  The before-swap listener does not wait for the exit animation.
    With a main content it returns as soon as the exit tween is started,
    the tween still running; when the engine later completes the tween,
    the callback handed over by the listener runs and does nothing, so the
    completion leaves no trace but the finished tween.  Without a main
    content the listener changes nothing at all. *)
Theorem before_swap_returns_at_once (w : World) :
  (forall m, hd_error (document w MAIN_CONTENT_SELECTOR) = Some m ->
     let k := length (tweens w) in
     let w1 := exit_started m (VFn SwapOnComplete) w in
     onBeforeSwap w = (Done tt, w1) /\
     nth_error (tweens w1) k = Some (mkTween m (exit_vars (VFn SwapOnComplete)) false) /\
     complete_tween k w1 =
       (Done tt,
        mkWorld (document w) (listeners w)
          (tweens w ++ [mkTween m (exit_vars (VFn SwapOnComplete)) true])
          (timelines w) (triggers w)
          (log w ++ [GsapTo m (exit_vars (VFn SwapOnComplete)); TweenComplete k])
          (in_view w))) /\
  (document w MAIN_CONTENT_SELECTOR = [] -> onBeforeSwap w = (Done tt, w)).
Proof.
  split.
  - intros m H k w1. split; [now apply pageExitAnimation_present|].
    split; [apply nth_error_last|].
    unfold w1, k. rewrite exit_tween_completes. cbn [apply_fn ret].
    now rewrite finished_exit_started.
  - intros H. unfold onBeforeSwap. now rewrite (pageExitAnimation_absent _ _ H).
Qed.

Lemma before_swap_returns_at_once_witness :
  onBeforeSwap (boot main_only) =
    (Done tt, exit_started 1 (VFn SwapOnComplete) (boot main_only)) /\
  onBeforeSwap (boot empty_document) = (Done tt, boot empty_document).
Proof.
  split.
  - exact (proj1 (proj1 (before_swap_returns_at_once (boot main_only)) 1 eq_refl)).
  - exact (proj2 (before_swap_returns_at_once (boot empty_document)) eq_refl).
Defined.

(* ================================================================== *)
(** * Every trigger of the page *)
(* ================================================================== *)

Lemma extend_grows Pe Pw Pt (tws : list Tween) (tls : list Timeline)
    (trs : list Trigger) (evs : list Event) (w : World) :
  Forall Pe evs -> Forall Pw tws -> Forall Pt trs ->
  grows Pe Pw Pt w (extend tws tls trs evs w).
Proof.
  intros He Hw Ht. constructor; cbn [extend document listeners tweens triggers log];
    try reflexivity; eexists; split; try reflexivity; assumption.
Qed.

Lemma Forall_any {A} (l : list A) : Forall any l.
Proof. apply Forall_forall. intros x _. exact I. Qed.

Lemma triggers_from_shaped (v : Viewport) (p : Part) (els : list Element) :
  forall i, Forall shaped (triggers_from v p i els).
Proof.
  induction els as [|el els IH]; intros i; simpl; constructor; auto.
  now exists p, el, i.
Qed.

Lemma page_load_triggers_shaped (d : Document) (v : Viewport) :
  Forall shaped (page_load_triggers d v).
Proof.
  unfold page_load_triggers. cbn [flat_map parts].
  repeat (apply Forall_app; split); auto using triggers_from_shaped.
Qed.

Lemma onPageLoad_adds : effect any any shaped onPageLoad.
Proof.
  intros w. unfold exec. rewrite onPageLoad_world. unfold page_loaded.
  apply extend_grows; auto using Forall_any, page_load_triggers_shaped.
Qed.

Lemma onBeforeSwap_adds : effect any any shaped onBeforeSwap.
Proof.
  unfold onBeforeSwap, pageExitAnimation. effects; exact I.
Qed.

Lemma apply_fn_adds (f : Fn) : effect any any shaped (apply_fn f).
Proof.
  induction f using Fn_Value_ind
    with (P := fun v => effect any any shaped (call v));
    simpl; try apply effect_raise; auto;
    try (effects; exact I).
  - effects. apply effect_emit. exact I.
  - rewrite guarded_call. destruct onComplete; try apply effect_ret.
    exact IHf.
Qed.

Lemma call_adds (v : Value) : effect any any shaped (call v).
Proof. destruct v; try apply effect_raise. apply apply_fn_adds. Qed.

Lemma grows_shaped (w w' : World) :
  grows any any shaped w w' ->
  Forall shaped (triggers w) -> Forall shaped (triggers w').
Proof.
  intros [_ _ _ _ (trs & R & F) _] H. rewrite R. apply Forall_app. now split.
Qed.

Lemma disarm_shaped (tr : Trigger) : shaped tr -> shaped (disarm tr).
Proof. intros (p & el & i & H). now exists p, el, i. Qed.

Lemma step_shaped (a : Action) (w : World) :
  Forall shaped (triggers w) -> Forall shaped (triggers (exec (step a) w)).
Proof.
  intros H. destruct a as [d|type|k|t|v]; unfold exec; cbn [step].
  - exact H.
  - apply (grows_shaped w); [|exact H].
    apply (dispatchEvent_effect any any shaped type onPageLoad_adds onBeforeSwap_adds w).
  - rewrite complete_tween_eq.
    destruct (nth_error (tweens w) k) as [tw|]; [|exact H].
    destruct (tw_done tw); [exact H|].
    destruct (lookup "onComplete" (tw_vars tw)) as [cb|]; [|exact H].
    apply (grows_shaped (finished k w)); [apply call_adds|exact H].
  - rewrite enter_viewport_eq.
    destruct (nth_error (triggers w) t) as [tr|]; [|exact H].
    destruct (st_alive tr); [|exact H].
    assert (E : Forall shaped (triggers (entered t (lookup "once" (st_vars tr)) w))).
    { unfold entered.
      destruct (lookup "once" (st_vars tr)) as [[| |[|]| | | | |]|]; try exact H.
      cbn [set_triggers triggers]. apply Forall_update_nth; auto using disarm_shaped. }
    destruct (lookup "onEnter" (st_vars tr)) as [cb|]; [|exact E].
    apply (grows_shaped (entered t (lookup "once" (st_vars tr)) w));
      [apply call_adds|exact E].
  - exact H.
Qed.

Lemma steps_shaped (acts : list Action) :
  forall w, Forall shaped (triggers w) -> Forall shaped (triggers (steps acts w)).
Proof.
  induction acts as [|a acts IH]; intros w H; simpl; [exact H|].
  apply IH. now apply step_shaped.
Qed.

(** X8.  In every world the page can reach, every trigger is one of the
    five kinds the script registers, on some element [el] and with some
    index, and while it is live the entry of its element does exactly
    this: it starts one tween, on [el], with the target style, the fixed
    duration and the stagger delay of that kind and index, and retires
    the trigger.  The element and the index are those captured when the
    trigger was registered: the document of the moment and the order
    in which elements enter play no part. *)
Theorem every_trigger_reveals_its_element (d : Document) (acts : list Action)
    (t : nat) (tr : Trigger) :
  let w := steps acts (boot d) in
  nth_error (triggers w) t = Some tr ->
  exists p el index,
    st_vars tr = trigger_vars p el index /\
    (st_alive tr = true ->
     forall d',
       enter_viewport t (set_document d' w) =
       (Done tt, entry_started p el index t (set_document d' w))) /\
    lookup "autoAlpha" (target_vars p index) = Some (VNum 1) /\
    lookup "y" (target_vars p index) = Some (VNum 0) /\
    duration_of (target_vars p index) = fixed_duration p /\
    lookup "delay" (target_vars p index) =
      match stagger p with
      | Some s => Some (VNum (times index s))
      | None => None
      end.
Proof.
  intros w N.
  assert (S : Forall shaped (triggers w)) by (apply steps_shaped; constructor).
  rewrite Forall_forall in S.
  destruct (S tr (nth_error_In _ _ N)) as (p & el & i & E).
  exists p, el, i. split; [exact E|]. split; [|now destruct p].
  intros A d'. apply enter_registered. cbn [set_document triggers].
  rewrite N. destruct tr as [vars alive]. simpl in *. now subst.
Qed.

Lemma every_trigger_reveals_its_element_witness :
  exists p el index,
    trigger_vars ServiceCard 6 1 = trigger_vars p el index /\
    (true = true ->
     forall d',
       enter_viewport 1
         (set_document d' (steps [Dispatch "astro:page-load"] (boot cards_page))) =
       (Done tt,
        entry_started p el index 1
          (set_document d' (steps [Dispatch "astro:page-load"] (boot cards_page))))) /\
    lookup "autoAlpha" (target_vars p index) = Some (VNum 1) /\
    lookup "y" (target_vars p index) = Some (VNum 0) /\
    duration_of (target_vars p index) = fixed_duration p /\
    lookup "delay" (target_vars p index) =
      match stagger p with
      | Some s => Some (VNum (times index s))
      | None => None
      end.
Proof.
  exact (every_trigger_reveals_its_element cards_page [Dispatch "astro:page-load"] 1
           (mkTrigger (trigger_vars ServiceCard 6 1) true) eq_refl).
Defined.
